(** * Scale generator: note parser, tuning resolver, fretboard generator

    A shallow embedding of the three pure functions of [src/app.js]
    ([parseNoteToSemitone], [parseTuning], [generateScaleDiagram]) and of
    the static tables they read, followed by the properties stated about
    them.

    JavaScript strings are sequences of UTF-16 code units; a code unit is
    an [N].  Numbers that the code computes with are integers well inside
    the exact range of a double, so they are [Z] (pitch classes, with the
    truncating remainder of [%] written [Z.rem]) or [nat] (string counts,
    array indices and lengths). *)

From Stdlib Require Import ZArith NArith Ascii String.
From stdpp Require Import base option list list_numbers gmap.

Local Open Scope Z_scope.

(** ** Strings and values *)

Abbreviation jsstring := (list N).

(** An ASCII character as a code unit, an ASCII literal as a JavaScript
    string. *)
Definition codeOf (c : ascii) : N := N_of_ascii c.

Definition js (s : string) : jsstring :=
  codeOf <$> list_ascii_of_string s.

(** The two Unicode accidentals the code rewrites: U+266D and U+266F. *)
Definition flatSign : N := 9837%N.
Definition sharpSign : N := 9839%N.

(** What a parameter or an array read can hold here: a string, or
    [undefined] (a missing argument, an index past the end). *)
Inductive jsval :=
  | JUndefined
  | JStr (s : jsstring).

#[global] Instance jsval_eq_dec : EqDecision jsval.
Proof. solve_decision. Defined.

(** [!v]: [undefined] and the empty string are falsy. *)
Definition falsy (v : jsval) : bool :=
  match v with
  | JUndefined => true
  | JStr [] => true
  | JStr (_ :: _) => false
  end.

(** The text of a value: the string itself, and "undefined" for
    [undefined], as a template literal [`${v}`] prints it. *)
Definition toStr (v : jsval) : jsstring :=
  match v with
  | JUndefined => js "undefined"
  | JStr s => s
  end.

(** [arr[i]] on an array of strings: [undefined] out of range. *)
Definition arrayGet (arr : list jsstring) (i : nat) : jsval :=
  match arr !! i with
  | Some s => JStr s
  | None => JUndefined
  end.

(** ** String primitives of the language *)

(** ECMAScript WhiteSpace and LineTerminator code points: the set that
    [String.prototype.trim] strips and that [\s] matches. *)
Definition whiteSpaceChars : list N :=
  [9; 10; 11; 12; 13; 32; 160; 5760;
   8192; 8193; 8194; 8195; 8196; 8197; 8198; 8199; 8200; 8201; 8202;
   8232; 8233; 8239; 8287; 12288; 65279]%N.

Definition isWhiteSpace (c : N) : bool :=
  bool_decide (c ∈ whiteSpaceChars).

Fixpoint dropWhile {A} (p : A → bool) (l : list A) : list A :=
  match l with
  | [] => []
  | x :: l' => if p x then dropWhile p l' else l
  end.

(** [s.trim()]: white space is stripped from the start and from the
    end. *)
Definition trimStart (s : jsstring) : jsstring := dropWhile isWhiteSpace s.
Definition trimEnd (s : jsstring) : jsstring :=
  reverse (dropWhile isWhiteSpace (reverse s)).
Definition trim (s : jsstring) : jsstring := trimEnd (trimStart s).

(** [s.replace(/c/g, d)] for a single code unit [c] and a single code
    unit [d]. *)
Definition replaceAll (c d : N) (s : jsstring) : jsstring :=
  (λ x, if (x =? c)%N then d else x) <$> s.

(** [s.charAt(i)]: a string of one code unit, empty out of range. *)
Definition charAt (s : jsstring) (i : nat) : jsstring :=
  match s !! i with
  | Some c => [c]
  | None => []
  end.

(** Upper-casing of a code unit below 128. *)
Definition asciiUpper (c : N) : N :=
  if ((97 <=? c) && (c <=? 122))%N then (c - 32)%N else c.

Definition isAscii (s : jsstring) : bool :=
  forallb (λ c, (c <? 128)%N) s.

(** [String.prototype.toUpperCase] follows the Unicode case tables of the
    engine.  The code only depends on what it does to ASCII text, so the
    development is stated for any upper-casing function that agrees with
    [asciiUpper] on strings of ASCII code units. *)
Class StringPrims := {
  toUpperCase : jsstring → jsstring;
  toUpperCase_ascii s :
    isAscii s = true → toUpperCase s = asciiUpper <$> s
}.

(** The instance that leaves every code unit above 127 unchanged. *)
Definition asciiPrims : StringPrims := {|
  toUpperCase s := asciiUpper <$> s;
  toUpperCase_ascii s _ := eq_refl
|}.

(** [s.split(/\s+/)]: the pieces between maximal runs of white space.
    [inSep] says that the previous code unit was white space, [cur] is
    the piece being read. *)
Fixpoint splitGo (inSep : bool) (cur : jsstring) (s : jsstring)
  : list jsstring :=
  match s with
  | [] => [cur]
  | c :: rest =>
      if isWhiteSpace c then
        if inSep then splitGo true [] rest
        else cur :: splitGo true [] rest
      else splitGo false (cur ++ [c]) rest
  end.

Definition splitWs (s : jsstring) : list jsstring := splitGo false [] s.

(** [/^drop\s+/i.test(s)].  Without the [u] flag, case-insensitive
    matching never equates an ASCII letter with a code unit above 127,
    so the prefix is one of the sixteen spellings of "drop". *)
Definition matchIgnoreCase (c letter : N) : bool :=
  ((c =? letter) || (c =? asciiUpper letter))%N.

Definition isDropForm (s : jsstring) : bool :=
  match s with
  | d :: r :: o :: p :: w :: _ =>
      matchIgnoreCase d (codeOf "d") && matchIgnoreCase r (codeOf "r")
      && matchIgnoreCase o (codeOf "o") && matchIgnoreCase p (codeOf "p")
      && isWhiteSpace w
  | _ => false
  end.

(** ** Static tables *)

(** [baseSemitoneMap]: own properties are the seven letters. *)
Definition baseSemitoneMap : gmap jsstring Z :=
  list_to_map
    [(js "C", 0); (js "D", 2); (js "E", 4); (js "F", 5);
     (js "G", 7); (js "A", 9); (js "B", 11)].

Definition noteNamesSharp : list jsstring :=
  js <$> ["C"; "C#"; "D"; "D#"; "E"; "F"; "F#"; "G"; "G#"; "A"; "A#"; "B"]%string.

Definition naturalMinorScales : gmap Z (list jsstring) :=
  list_to_map
    [(0,  js <$> ["C"; "D"; "Eb"; "F"; "G"; "Ab"; "Bb"]%string);
     (1,  js <$> ["C#"; "D#"; "E"; "F#"; "G#"; "A"; "B"]%string);
     (2,  js <$> ["D"; "E"; "F"; "G"; "A"; "Bb"; "C"]%string);
     (3,  js <$> ["Eb"; "F"; "Gb"; "Ab"; "Bb"; "Cb"; "Db"]%string);
     (4,  js <$> ["E"; "F#"; "G"; "A"; "B"; "C"; "D"]%string);
     (5,  js <$> ["F"; "G"; "Ab"; "Bb"; "C"; "Db"; "Eb"]%string);
     (6,  js <$> ["F#"; "G#"; "A"; "B"; "C#"; "D"; "E"]%string);
     (7,  js <$> ["G"; "A"; "Bb"; "C"; "D"; "Eb"; "F"]%string);
     (8,  js <$> ["Ab"; "Bb"; "Cb"; "Db"; "Eb"; "Fb"; "Gb"]%string);
     (9,  js <$> ["A"; "B"; "C"; "D"; "E"; "F"; "G"]%string);
     (10, js <$> ["Bb"; "C"; "Db"; "Eb"; "F"; "Gb"; "Ab"]%string);
     (11, js <$> ["B"; "C#"; "D"; "E"; "F#"; "G"; "A"]%string)].

Definition harmonicMinorScales : gmap Z (list jsstring) :=
  list_to_map
    [(0,  js <$> ["C"; "D"; "Eb"; "F"; "G"; "Ab"; "B"]%string);
     (1,  js <$> ["C#"; "D#"; "E"; "F#"; "G#"; "A"; "B#"]%string);
     (2,  js <$> ["D"; "E"; "F"; "G"; "A"; "Bb"; "C#"]%string);
     (3,  js <$> ["Eb"; "F"; "Gb"; "Ab"; "Bb"; "Cb"; "D"]%string);
     (4,  js <$> ["E"; "F#"; "G"; "A"; "B"; "C"; "D#"]%string);
     (5,  js <$> ["F"; "G"; "Ab"; "Bb"; "C"; "Db"; "E"]%string);
     (6,  js <$> ["F#"; "G#"; "A"; "B"; "C#"; "D"; "E#"]%string);
     (7,  js <$> ["G"; "A"; "Bb"; "C"; "D"; "Eb"; "F#"]%string);
     (8,  js <$> ["Ab"; "Bb"; "Cb"; "Db"; "Eb"; "Fb"; "G"]%string);
     (9,  js <$> ["A"; "B"; "C"; "D"; "E"; "F"; "G#"]%string);
     (10, js <$> ["Bb"; "C"; "Db"; "Eb"; "F"; "Gb"; "A"]%string);
     (11, js <$> ["B"; "C#"; "D"; "E"; "F#"; "G"; "A#"]%string)].

Definition standardTunings : gmap nat (list jsstring) :=
  list_to_map
    [(4%nat, js <$> ["E"; "A"; "D"; "G"]%string);
     (5%nat, js <$> ["B"; "E"; "A"; "D"; "G"]%string);
     (6%nat, js <$> ["E"; "A"; "D"; "G"; "B"; "E"]%string);
     (7%nat, js <$> ["B"; "E"; "A"; "D"; "G"; "B"; "E"]%string);
     (8%nat, js <$> ["F#"; "B"; "E"; "A"; "D"; "G"; "B"; "E"]%string)].

(** ** The three functions *)

Section Core.
Context {prims : StringPrims}.

(** The loop over the code units after the base letter: [+1] for "#",
    [-1] for "B", [null] at anything else. *)
Fixpoint accidentals (rest : jsstring) (semitone : Z) : option Z :=
  match rest with
  | [] => Some semitone
  | ch :: rest' =>
      if decide ([ch] = js "#") then accidentals rest' (semitone + 1)
      else if decide ([ch] = js "B") then accidentals rest' (semitone - 1)
      else None
  end.

(** The normalisation of line 42: accidental signs, then upper case. *)
Definition normalizeNote (n : jsstring) : jsstring :=
  toUpperCase
    (replaceAll sharpSign (codeOf "#") (replaceAll flatSign (codeOf "b") n)).

Definition parseNoteToSemitone (note : jsval) : option Z :=
  if falsy note then None else
  let n := trim (toStr note) in
  if bool_decide (length n = 0%nat) then None else
  let n := normalizeNote n in
  let base := charAt n 0 in
  match baseSemitoneMap !! base with
  | None => None
  | Some semitone =>
      semitone ← accidentals (drop 1 n) semitone;
      Some (Z.rem (Z.rem semitone 12 + 12) 12)
  end.

(** The normalisation of a tuning token (lines 139 and 151): upper case
    first, accidental signs afterwards. *)
Definition normalizeToken (t : jsstring) : jsstring :=
  replaceAll sharpSign (codeOf "#")
    (replaceAll flatSign (codeOf "b") (toUpperCase t)).

(** [result[0] = v] on a copy of [arr]; an empty array would grow. *)
Definition setFirst (arr : list jsstring) (v : jsstring) : list jsstring :=
  match arr with
  | [] => [v]
  | _ => <[0%nat := v]> arr
  end.

Definition parseTuning (input : jsval) (numStrings : nat)
  : option (list jsstring) :=
  if falsy input then None else
  let trimmed := trim (toStr input) in
  if isDropForm trimmed then
    let parts := splitWs trimmed in
    if bool_decide (length parts < 2)%nat then None else
    let dropNote := normalizeToken (default [] (parts !! 1%nat)) in
    match standardTunings !! numStrings with
    | None => None
    | Some baseTuning => Some (setFirst baseTuning dropNote)
    end
  else
    let tokens := filter (λ t, t ≠ []) (splitWs trimmed) in
    if bool_decide (length tokens ≠ numStrings) then None
    else Some (normalizeToken <$> tokens).

(** The result of [generateScaleDiagram]: the object with the four
    fields, or the object with the [error] message. *)
Record diagram := {
  scale : list jsstring;
  fretboard : list (list (jsval * bool));
  rootSemitone : Z;
  scaleSemitones : list (option Z)
}.

Inductive result :=
  | Diagram (d : diagram)
  | Error (message : jsstring).

(** "Tonalidade inválida." *)
Definition errInvalidKey : jsstring :=
  js "Tonalidade inv" ++ [225%N] ++ js "lida.".
(** "Tipo de escala inválido." *)
Definition errInvalidScaleType : jsstring :=
  js "Tipo de escala inv" ++ [225%N] ++ js "lido.".
(** "Escala não encontrada." *)
Definition errScaleNotFound : jsstring :=
  js "Escala n" ++ [227%N] ++ js "o encontrada.".
(** "Nota de afinação inválida: " followed by the open note. *)
Definition tuningNotePrefix : jsstring :=
  js "Nota de afina" ++ [231%N; 227%N] ++ js "o inv" ++ [225%N]
    ++ js "lida: ".
Definition errInvalidTuningNote (openNote : jsval) : jsstring :=
  tuningNotePrefix ++ toStr openNote.

(** [scaleSemitones.includes(x)] for a number [x]: [null] entries never
    compare equal to it. *)
Definition includes (l : list (option Z)) (x : Z) : bool :=
  bool_decide (Some x ∈ l).

(** The cell pushed for one fret. *)
Definition fretCell (scaleSemitones : list (option Z))
    (openSemitone : Z) (fret : Z) : jsval * bool :=
  let noteSemitone := Z.rem (openSemitone + fret) 12 in
  let noteNameDisplay := arrayGet noteNamesSharp (Z.to_nat noteSemitone) in
  let inScale := includes scaleSemitones noteSemitone in
  (noteNameDisplay, inScale).

(** The inner loop: frets 1 to [fretCount], each pushed on [stringRow]. *)
Definition fretLoop (scaleSemitones : list (option Z))
    (openSemitone : Z) (fretCount : Z) : list (jsval * bool) :=
  foldl (λ stringRow fret,
           stringRow ++ [fretCell scaleSemitones openSemitone fret])
        [] (seqZ 1 fretCount).

(** The outer loop from string [s] on, with [todo] strings left; it
    returns the error object as soon as an open note does not parse. *)
Fixpoint stringLoop (tuningArray : list jsstring)
    (scaleSemitones : list (option Z)) (todo s : nat)
    (fretboard : list (list (jsval * bool)))
  : jsstring + list (list (jsval * bool)) :=
  match todo with
  | O => inr fretboard
  | S todo' =>
      let openNote := arrayGet tuningArray s in
      match parseNoteToSemitone openNote with
      | None => inl (errInvalidTuningNote openNote)
      | Some openSemitone =>
          let stringRow := fretLoop scaleSemitones openSemitone 12 in
          stringLoop tuningArray scaleSemitones todo' (S s)
            (fretboard ++ [stringRow])
      end
  end.

Definition generateScaleDiagram (numStrings : nat)
    (tuningArray : list jsstring) (rootNote : jsval) (scaleType : jsstring)
  : result :=
  match parseNoteToSemitone rootNote with
  | None => Error errInvalidKey
  | Some rootSemitone =>
      let lookup :=
        if decide (scaleType = js "natural")
        then Some (naturalMinorScales !! rootSemitone)
        else if decide (scaleType = js "harmonic")
        then Some (harmonicMinorScales !! rootSemitone)
        else None in
      match lookup with
      | None => Error errInvalidScaleType
      | Some None => Error errScaleNotFound
      | Some (Some scaleNotes) =>
          let scaleSemitones :=
            (λ n, parseNoteToSemitone (JStr n)) <$> scaleNotes in
          match stringLoop tuningArray scaleSemitones numStrings 0 [] with
          | inl message => Error message
          | inr fretboard =>
              Diagram {| scale := scaleNotes;
                         fretboard := fretboard;
                         rootSemitone := rootSemitone;
                         scaleSemitones := scaleSemitones |}
          end
      end
  end.

End Core.

(** ** The application's state and handlers *)

(** The component [App] keeps six [useState] cells; its handlers are
    state transformers here.  The fields keep the names of the cells. *)
Module App.

(** What [generateScaleDiagram] returned, as the cell [result] holds it. *)
Abbreviation generated := result.

Record state := {
  numStrings : nat;
  tuningNotes : list jsstring;
  rootNote : jsstring;
  scaleType : jsstring;
  result : option generated;
  error : option jsstring
}.

(** The cells' initial values (lines 210-216). *)
Definition initial : state :=
  {| numStrings := 6;
     tuningNotes := default [] (standardTunings !! 6%nat);
     rootNote := js "C";
     scaleType := js "harmonic";
     result := None;
     error := None |}.

Definition setNumStrings (n : nat) (st : state) : state :=
  {| numStrings := n; tuningNotes := tuningNotes st;
     rootNote := rootNote st; scaleType := scaleType st;
     result := result st; error := error st |}.

Definition setTuningNotes (t : list jsstring) (st : state) : state :=
  {| numStrings := numStrings st; tuningNotes := t;
     rootNote := rootNote st; scaleType := scaleType st;
     result := result st; error := error st |}.

Definition setRootNote (v : jsstring) (st : state) : state :=
  {| numStrings := numStrings st; tuningNotes := tuningNotes st;
     rootNote := v; scaleType := scaleType st;
     result := result st; error := error st |}.

Definition setScaleType (v : jsstring) (st : state) : state :=
  {| numStrings := numStrings st; tuningNotes := tuningNotes st;
     rootNote := rootNote st; scaleType := v;
     result := result st; error := error st |}.

(** [setError(e); setResult(r)] *)
Definition setOutcome (e : option jsstring) (r : option generated)
    (st : state) : state :=
  {| numStrings := numStrings st; tuningNotes := tuningNotes st;
     rootNote := rootNote st; scaleType := scaleType st;
     result := r; error := e |}.

(** The effect of lines 219-224, run when [numStrings] has changed: the
    standard tuning of the new count replaces the tuning, if there is
    one. *)
Definition tuningEffect (st : state) : state :=
  match standardTunings !! numStrings st with
  | Some base => setTuningNotes base st
  | None => st
  end.

(** [handleTuningChange]: [next[index] = value] on a copy.  At
    [index = length] the array grows by one; beyond that JavaScript
    leaves holes, which an array of strings cannot hold here: [None]. *)
Definition handleTuningChange (index : nat) (value : jsstring)
    (st : state) : option state :=
  let prev := tuningNotes st in
  if decide (index < length prev)%nat
  then Some (setTuningNotes (<[index := value]> prev) st)
  else if decide (index = length prev)
  then Some (setTuningNotes (prev ++ [value]) st)
  else None.

Section Handlers.
Context {prims : StringPrims}.

(** The loop of lines 237-243: the message for the first tuning note
    that does not parse. *)
Fixpoint checkTuning (notes : list jsstring) : option jsstring :=
  match notes with
  | [] => None
  | note :: rest =>
      match parseNoteToSemitone (JStr note) with
      | None => Some (tuningNotePrefix ++ note)
      | Some _ => checkTuning rest
      end
  end.

(** [handleGenerate] (lines 235-252).  [diag.error] counts when it is a
    non-empty string. *)
Definition handleGenerate (st : state) : state :=
  match checkTuning (tuningNotes st) with
  | Some message => setOutcome (Some message) None st
  | None =>
      let diag :=
        generateScaleDiagram (numStrings st) (tuningNotes st)
          (JStr (rootNote st)) (scaleType st) in
      match diag with
      | Error (c :: message) => setOutcome (Some (c :: message)) None st
      | _ => setOutcome None (Some diag) st
      end
  end.

(** The class of a rendered cell (lines 475-479). *)
Definition circleClass (rootSemitone : Z) (cell : jsval * bool) : jsstring :=
  let '(noteNameDisplay, inScale) := cell in
  let noteSemitone := parseNoteToSemitone noteNameDisplay in
  let isRoot := bool_decide (noteSemitone = Some rootSemitone) in
  if isRoot then js "note-root"
  else if inScale then js "note-scale"
  else js "note-other".

End Handlers.

(** One user action with the effect it schedules.  The two tuning
    selects and the key select offer the names of [noteNamesSharp], the
    scale-type select the two selectors; a select exists for each entry
    of the tuning.  The string count is a number input, whose [min] and
    [max] do not bind what is typed: the counts that are natural numbers
    are the events here.  The effect runs when the string count has
    changed. *)
Inductive event :=
  | ChangeNumStrings (n : nat)
  | ChangeTuning (index : nat) (value : jsstring)
  | ChangeRoot (value : jsstring)
  | ChangeScaleType (value : jsstring)
  | ClickGenerate.

Definition step {prims : StringPrims} (st : state) (e : event)
  : option state :=
  match e with
  | ChangeNumStrings n =>
      if decide (n = numStrings st) then Some st
      else Some (tuningEffect (setNumStrings n st))
  | ChangeTuning index value =>
      if decide (value ∈ noteNamesSharp ∧ (index < length (tuningNotes st))%nat)
      then handleTuningChange index value st
      else None
  | ChangeRoot value =>
      if decide (value ∈ noteNamesSharp) then Some (setRootNote value st)
      else None
  | ChangeScaleType value =>
      if decide (value ∈ [js "natural"; js "harmonic"])
      then Some (setScaleType value st)
      else None
  | ClickGenerate => Some (handleGenerate st)
  end.

(** The states the user can bring the component into. *)
Inductive reachable {prims : StringPrims} : state → Prop :=
  | reachable_initial : reachable initial
  | reachable_step st e st' :
      reachable st → step st e = Some st' → reachable st'.

End App.

(** ** Specification vocabulary *)

(** The seven letters a note name may start with. *)
Definition noteLetters : list jsstring :=
  js <$> ["A"; "B"; "C"; "D"; "E"; "F"; "G"]%string.

(** The letter table of the note grammar, as the list of its entries. *)
Definition letterTable : list (jsstring * Z) :=
  [(js "C", 0); (js "D", 2); (js "E", 4); (js "F", 5);
   (js "G", 7); (js "A", 9); (js "B", 11)].

(** An accidental after normalisation: "#" raises, "B" lowers. *)
Definition isAccidental (c : N) : Prop := [c] = js "#" ∨ [c] = js "B".

#[global] Instance isAccidental_dec c : Decision (isAccidental c).
Proof. unfold isAccidental. apply _. Defined.

(** How many times the character [c] occurs in [s]. *)
Definition occurrences (c : ascii) (s : jsstring) : Z :=
  Z.of_nat (length (filter (λ x, x = codeOf c) s)).

(** The scale-type selectors the generator accepts. *)
Definition validScaleType (scaleType : jsstring) : Prop :=
  scaleType = js "natural" ∨ scaleType = js "harmonic".

(** The table row the generator reads for a selector and a root. *)
Definition scaleLookup (scaleType : jsstring) (r : Z)
  : option (list jsstring) :=
  if decide (scaleType = js "natural") then naturalMinorScales !! r
  else if decide (scaleType = js "harmonic") then harmonicMinorScales !! r
  else None.

(** The cell of string [s] at fret [fret]; rows start at fret 1. *)
Definition cellAt (fb : list (list (jsval * bool))) (s fret : nat)
  : option (jsval * bool) :=
  row ← fb !! s; row !! (fret - 1)%nat.

(** The white-space-separated tokens of a text, read off its words: a
    token is a maximal run of code units that are not white space.
    [cur] is the token being read. *)
Fixpoint wordsGo (cur : jsstring) (s : jsstring) : list jsstring :=
  match s with
  | [] => match cur with [] => [] | _ => [cur] end
  | c :: rest =>
      if isWhiteSpace c then
        match cur with
        | [] => wordsGo [] rest
        | _ => cur :: wordsGo [] rest
        end
      else wordsGo (cur ++ [c]) rest
  end.

Definition words (s : jsstring) : list jsstring := wordsGo [] s.

(** A text that starts with "drop" in any letter case, followed by a
    white-space code unit. *)
Definition DropPrefixed (t : jsstring) : Prop :=
  ∃ pre w rest,
    t = pre ++ w :: rest
    ∧ asciiUpper <$> pre = js "DROP"
    ∧ isWhiteSpace w = true.

(** What every row of the two scale tables satisfies: seven ASCII names
    that parse to seven different pitch classes. *)
Definition scaleRowOk (l : list jsstring) : Prop :=
  length l = 7%nat
  ∧ Forall (λ t, isAscii t = true) l
  ∧ Forall is_Some
      ((λ t, parseNoteToSemitone (prims := asciiPrims) (JStr t)) <$> l)
  ∧ NoDup ((λ t, parseNoteToSemitone (prims := asciiPrims) (JStr t)) <$> l).

#[global] Instance scaleRowOk_dec l : Decision (scaleRowOk l).
Proof. unfold scaleRowOk. apply _. Defined.

(** Closed goals settled by evaluation, directly or through their
    decision procedure. *)
Ltac by_compute :=
  first [ by vm_compute | by apply (bool_decide_unpack _); vm_compute ].

(** ** Arithmetic of the final reduction *)

Lemma js_floored_mod (x : Z) : Z.rem (Z.rem x 12 + 12) 12 = x `mod` 12.
Proof.
  pose proof (Z.quot_rem' x 12) as Hq.
  pose proof (Z.rem_bound_abs x 12 ltac:(lia)) as Hb.
  assert (0 ≤ x → 0 ≤ Z.rem x 12) by (intros; apply Z.rem_nonneg; lia).
  assert (x ≤ 0 → Z.rem x 12 ≤ 0) by (intros; apply Z.rem_nonpos; lia).
  rewrite Z.rem_mod_nonneg by lia.
  pose proof (Z.div_mod (Z.rem x 12 + 12) 12 ltac:(lia)).
  pose proof (Z.mod_pos_bound (Z.rem x 12 + 12) 12 ltac:(lia)).
  apply (Z.mod_unique_pos _ _ (Z.quot x 12 - 1 + (Z.rem x 12 + 12) / 12)); lia.
Qed.

Lemma js_floored_mod_range (x : Z) : 0 ≤ Z.rem (Z.rem x 12 + 12) 12 < 12.
Proof. rewrite js_floored_mod. apply Z.mod_pos_bound; lia. Qed.

(** ** White space and trimming *)

Section DropWhile.
Context {A : Type} (p : A → bool).

Lemma dropWhile_split (l : list A) :
  ∃ pre, l = pre ++ dropWhile p l ∧ Forall (λ x, p x = true) pre.
Proof.
  induction l as [|x l [pre [Hl Hpre]]]; simpl.
  - by exists [].
  - destruct (p x) eqn:Hx.
    + exists (x :: pre). split; [by rewrite <- app_comm_cons, <- Hl | by constructor].
    + by exists [].
Qed.

Lemma dropWhile_head (l : list A) x l' :
  dropWhile p l = x :: l' → p x = false.
Proof.
  induction l as [|y l IH]; simpl; [done|].
  destruct (p y) eqn:Hy; [done|]. by intros [= -> _].
Qed.

Lemma dropWhile_all (l : list A) :
  Forall (λ x, p x = true) l → dropWhile p l = [].
Proof. induction 1 as [|x l Hx _ IH]; simpl; [done|]. by rewrite Hx. Qed.

Lemma dropWhile_none x (l : list A) :
  p x = false → dropWhile p (x :: l) = x :: l.
Proof. intros Hx. simpl. by rewrite Hx. Qed.

Lemma dropWhile_app (l k : list A) :
  dropWhile p (l ++ k) =
    match dropWhile p l with
    | [] => dropWhile p k
    | _ => dropWhile p l ++ k
    end.
Proof.
  induction l as [|x l IH]; simpl.
  - by destruct (dropWhile p k).
  - by destruct (p x).
Qed.

Lemma Forall_dropWhile (P : A → Prop) (l : list A) :
  Forall P l → Forall P (dropWhile p l).
Proof.
  induction 1 as [|x l Hx Hl IH]; simpl; [done|].
  destruct (p x); [done | by constructor].
Qed.

End DropWhile.

Lemma trimEnd_split (s : jsstring) :
  ∃ suf, s = trimEnd s ++ suf ∧ Forall (λ c, isWhiteSpace c = true) suf.
Proof.
  unfold trimEnd.
  destruct (dropWhile_split isWhiteSpace (reverse s)) as [pre [Hs Hpre]].
  exists (reverse pre). split.
  - rewrite <- reverse_app, <- Hs. by rewrite reverse_involutive.
  - by apply Forall_reverse.
Qed.

Lemma trimEnd_last (s l : jsstring) x :
  trimEnd s = l ++ [x] → isWhiteSpace x = false.
Proof.
  unfold trimEnd. intros H.
  apply (f_equal reverse) in H.
  rewrite reverse_involutive, reverse_app in H. simpl in H.
  by apply dropWhile_head in H.
Qed.

Lemma trimEnd_app (a b : jsstring) :
  trimEnd (a ++ b) =
    match trimEnd b with
    | [] => trimEnd a
    | _ => a ++ trimEnd b
    end.
Proof.
  unfold trimEnd. rewrite reverse_app, dropWhile_app.
  destruct (dropWhile isWhiteSpace (reverse b)) as [|x l] eqn:Hb; [done|].
  rewrite reverse_app, reverse_involutive.
  destruct (reverse (x :: l)) eqn:Hr; [|done].
  apply (f_equal reverse) in Hr. by rewrite reverse_involutive in Hr.
Qed.

Lemma trimEnd_snoc (l : jsstring) x :
  isWhiteSpace x = false → trimEnd (l ++ [x]) = l ++ [x].
Proof.
  intros Hx.
  assert (trimEnd [x] = [x]) as Hone.
  { unfold trimEnd. change (reverse [x]) with [x]. by rewrite dropWhile_none. }
  by rewrite trimEnd_app, Hone.
Qed.

Lemma trim_last (s l : jsstring) x :
  trim s = l ++ [x] → isWhiteSpace x = false.
Proof. apply trimEnd_last. Qed.

Lemma trim_head (s l : jsstring) x :
  trim s = x :: l → isWhiteSpace x = false.
Proof.
  unfold trim, trimStart. intros H.
  destruct (trimEnd_split (dropWhile isWhiteSpace s)) as [suf [Hs _]].
  rewrite H in Hs. by apply dropWhile_head in Hs.
Qed.

(** ** ASCII text *)

Lemma isAscii_Forall (s : jsstring) :
  isAscii s = true ↔ Forall (λ c, (c < 128)%N) s.
Proof.
  unfold isAscii. rewrite forallb_forall, Forall_forall.
  split; intros H c Hc.
  - apply N.ltb_lt, H. by apply list_elem_of_In.
  - apply N.ltb_lt, H. by apply list_elem_of_In.
Qed.

Lemma isAscii_trim (s : jsstring) : isAscii s = true → isAscii (trim s) = true.
Proof.
  rewrite !isAscii_Forall. intros H. unfold trim, trimStart, trimEnd.
  by apply Forall_reverse, Forall_dropWhile, Forall_reverse, Forall_dropWhile.
Qed.

Lemma isAscii_replaceAll (c d : N) (s : jsstring) :
  (d < 128)%N → isAscii s = true → isAscii (replaceAll c d s) = true.
Proof.
  rewrite !isAscii_Forall. intros Hd H. unfold replaceAll.
  apply Forall_fmap. eapply Forall_impl; [exact H|].
  intros x Hx. simpl. by destruct (x =? c)%N.
Qed.

(** ** The note parser *)

Lemma letterTable_keys_NoDup : NoDup letterTable.*1.
Proof. by apply (bool_decide_unpack _); vm_compute. Qed.

Lemma baseSemitoneMap_Some (base : jsstring) (b : Z) :
  baseSemitoneMap !! base = Some b ↔ (base, b) ∈ letterTable.
Proof.
  symmetry. apply (elem_of_list_to_map (M := gmap jsstring)).
  apply letterTable_keys_NoDup.
Qed.

Lemma baseSemitoneMap_None (base : jsstring) :
  baseSemitoneMap !! base = None ↔ base ∉ noteLetters.
Proof.
  unfold baseSemitoneMap.
  rewrite <- (not_elem_of_list_to_map (M := gmap jsstring)).
  change (letterTable.*1) with (js <$> ["C"; "D"; "E"; "F"; "G"; "A"; "B"]%string).
  unfold noteLetters. rewrite !fmap_cons, !elem_of_cons. tauto.
Qed.

Lemma baseSemitoneMap_is_Some (base : jsstring) :
  is_Some (baseSemitoneMap !! base) ↔ base ∈ noteLetters.
Proof.
  rewrite <- not_eq_None_Some, baseSemitoneMap_None.
  split; [apply dec_stable | tauto].
Qed.

Lemma accidentals_Some (rest : jsstring) (b : Z) :
  Forall isAccidental rest →
  accidentals rest b =
    Some (b + occurrences "#" rest - occurrences "B" rest).
Proof.
  unfold occurrences. intros H. revert b.
  induction H as [|c rest Hc _ IH]; intros b.
  - simpl. f_equal. lia.
  - cbn [accidentals].
    destruct Hc as [Hc|Hc]; vm_compute in Hc; injection Hc as ->.
    + rewrite decide_True by done. rewrite IH.
      rewrite filter_cons_True by done.
      rewrite filter_cons_False by by vm_compute.
      cbn [length]. f_equal. lia.
    + rewrite decide_False by done. rewrite decide_True by done. rewrite IH.
      rewrite filter_cons_False by by vm_compute.
      rewrite filter_cons_True by done.
      cbn [length]. f_equal. lia.
Qed.

Lemma accidentals_None (rest : jsstring) (b : Z) :
  accidentals rest b = None ↔ Exists (λ c, ¬ isAccidental c) rest.
Proof.
  revert b. induction rest as [|c rest IH]; intros b; simpl.
  - rewrite Exists_nil. split; [done | tauto].
  - rewrite Exists_cons. unfold isAccidental at 1.
    repeat case_decide; rewrite ?IH; tauto.
Qed.

Section NoteParser.
Context {prims : StringPrims}.

Lemma normalizeNote_ascii (n : jsstring) :
  isAscii n = true →
  normalizeNote n = normalizeNote (prims := asciiPrims) n.
Proof.
  intros H. unfold normalizeNote. rewrite toUpperCase_ascii; [done|].
  by do 2 (apply isAscii_replaceAll; [done|]).
Qed.

Lemma normalizeNote_nil : normalizeNote [] = [].
Proof. by rewrite normalizeNote_ascii. Qed.

(** On ASCII text the parser does not depend on the engine's case
    tables. *)
Lemma parseNote_ascii (note : jsval) :
  isAscii (toStr note) = true →
  parseNoteToSemitone note = parseNoteToSemitone (prims := asciiPrims) note.
Proof.
  intros H. unfold parseNoteToSemitone.
  by rewrite (normalizeNote_ascii (trim (toStr note))) by by apply isAscii_trim.
Qed.

(** The parser on a string, in one equation. *)
Lemma parseNote_unfold (s : jsstring) :
  parseNoteToSemitone (JStr s) =
    match trim s, normalizeNote (trim s) with
    | [], _ | _, [] => None
    | _, l :: rest =>
        b ← baseSemitoneMap !! [l];
        a ← accidentals rest b;
        Some (a `mod` 12)
    end.
Proof.
  unfold parseNoteToSemitone. destruct s as [|c s]; [done|].
  simpl falsy. cbv iota. simpl toStr.
  destruct (trim (c :: s)) as [|x t] eqn:Ht.
  { by rewrite bool_decide_eq_true_2. }
  rewrite bool_decide_eq_false_2 by (simpl; lia).
  destruct (normalizeNote (x :: t)) as [|l rest]; [done|].
  unfold charAt. cbn [lookup list_lookup drop]. rewrite drop_0.
  destruct (baseSemitoneMap !! [l]) as [b|]; [|done]. cbn.
  destruct (accidentals rest b) as [a|]; [|done]. cbn.
  by rewrite js_floored_mod.
Qed.

Lemma parseNote_range (note : jsval) (x : Z) :
  parseNoteToSemitone note = Some x → 0 ≤ x < 12.
Proof.
  unfold parseNoteToSemitone. intros H.
  repeat (case_match; simplify_option_eq); try done.
  apply js_floored_mod_range.
Qed.

(** C3: a trimmed, normalised input made of a letter A-G followed only
    by "#" and "B" parses to the letter's table value plus the number of
    "#" minus the number of "B", reduced by floored modulo 12; the value
    lies in 0..11, and "C#" and "Db" get the same pitch class. *)
Theorem parseNote_valid_spelling (s : jsstring) (l : N) (rest : jsstring)
    (b : Z) :
  normalizeNote (trim s) = l :: rest →
  ([l], b) ∈ letterTable →
  Forall isAccidental rest →
  parseNoteToSemitone (JStr s)
    = Some ((b + occurrences "#" rest - occurrences "B" rest) `mod` 12)
  ∧ 0 ≤ (b + occurrences "#" rest - occurrences "B" rest) `mod` 12 < 12
  ∧ parseNoteToSemitone (JStr (js "C#")) = Some 1
  ∧ parseNoteToSemitone (JStr (js "Db")) = Some 1.
Proof.
  intros Hn Hl Hrest. split; [|split; [|split]].
  - rewrite parseNote_unfold, Hn.
    destruct (trim s) eqn:Ht.
    { by rewrite normalizeNote_nil in Hn. }
    apply baseSemitoneMap_Some in Hl. rewrite Hl. cbn.
    by rewrite accidentals_Some.
  - apply Z.mod_pos_bound. lia.
  - by rewrite parseNote_ascii.
  - by rewrite parseNote_ascii.
Qed.

(** C4: the parser answers [null] exactly for a missing, empty or blank
    input, a first character (after normalisation) outside A-G, or a
    later character that is neither "#" nor "B" after normalisation; it
    is a total function, and "", "H" and "C$" are all invalid. *)
Theorem parseNote_invalid_iff (s : jsstring) :
  (parseNoteToSemitone (JStr s) = None ↔
     trim s = []
     ∨ charAt (normalizeNote (trim s)) 0 ∉ noteLetters
     ∨ Exists (λ c, ¬ isAccidental c) (drop 1 (normalizeNote (trim s))))
  ∧ parseNoteToSemitone JUndefined = None
  ∧ parseNoteToSemitone (JStr (js "")) = None
  ∧ parseNoteToSemitone (JStr (js "H")) = None
  ∧ parseNoteToSemitone (JStr (js "C$")) = None.
Proof.
  split; [|by rewrite !parseNote_ascii].
  rewrite parseNote_unfold.
  destruct (trim s) as [|x t] eqn:Ht; [by split; [left|]|].
  destruct (normalizeNote (x :: t)) as [|l rest] eqn:Hn.
  { split; [|done]. intros _. right; left.
    unfold charAt. cbn. by apply baseSemitoneMap_None. }
  unfold charAt. cbn [lookup list_lookup drop]. rewrite drop_0.
  destruct (baseSemitoneMap !! [l]) as [b|] eqn:Hb; cbn.
  - assert ([l] ∈ noteLetters) as Hin
      by (apply baseSemitoneMap_is_Some; eauto).
    destruct (accidentals rest b) as [a|] eqn:Ha; cbn.
    + split; [done|]. intros [?|[?|Hex]]; try done.
      apply (accidentals_None _ b) in Hex. congruence.
    + split; [|done]. intros _. do 2 right.
      by apply (accidentals_None _ b).
  - split; [|done]. intros _. right; left.
    by apply baseSemitoneMap_None.
Qed.

End NoteParser.

(** ** The scale tables *)

Lemma naturalMinorScales_row (r : Z) (l : list jsstring) :
  naturalMinorScales !! r = Some l → scaleRowOk l.
Proof.
  intros H. apply (elem_of_list_to_map_2 (M := gmap Z)) in H.
  change (scaleRowOk (r, l).2). revert H. generalize (r, l).
  apply Forall_forall.
  by apply (bool_decide_unpack _); vm_compute.
Qed.

Lemma harmonicMinorScales_row (r : Z) (l : list jsstring) :
  harmonicMinorScales !! r = Some l → scaleRowOk l.
Proof.
  intros H. apply (elem_of_list_to_map_2 (M := gmap Z)) in H.
  change (scaleRowOk (r, l).2). revert H. generalize (r, l).
  apply Forall_forall.
  by apply (bool_decide_unpack _); vm_compute.
Qed.

Lemma pitch_class_cases (r : Z) :
  0 ≤ r < 12 →
  r ∈ [0; 1; 2; 3; 4; 5; 6; 7; 8; 9; 10; 11].
Proof. intros H. rewrite !elem_of_cons. lia. Qed.

Lemma scale_tables_total (r : Z) :
  0 ≤ r < 12 →
  is_Some (naturalMinorScales !! r) ∧ is_Some (harmonicMinorScales !! r).
Proof.
  intros H%pitch_class_cases. revert r H. apply Forall_forall.
  by apply (bool_decide_unpack _); vm_compute.
Qed.

Lemma noteNamesSharp_lookup (r : Z) :
  0 ≤ r < 12 →
  ∃ name, noteNamesSharp !! Z.to_nat r = Some name
    ∧ parseNoteToSemitone (prims := asciiPrims) (JStr name) = Some r
    ∧ isAscii name = true.
Proof.
  intros H%pitch_class_cases. revert r H. apply Forall_forall.
  repeat (constructor; [by eexists; split; [reflexivity|split; vm_compute]|]).
  constructor.
Qed.

(** ** The generator's loops *)

Lemma foldl_push {A B} (f : B → A) (l : list B) (acc : list A) :
  foldl (λ row x, row ++ [f x]) acc l = acc ++ (f <$> l).
Proof.
  revert acc. induction l as [|x l IH]; intros acc; simpl.
  - by rewrite app_nil_r.
  - by rewrite IH, <- app_assoc.
Qed.

Lemma fretLoop_map (sc : list (option Z)) (o fretCount : Z) :
  fretLoop sc o fretCount = fretCell sc o <$> seqZ 1 fretCount.
Proof. unfold fretLoop. by rewrite foldl_push. Qed.


Lemma arrayGet_ge (t : list jsstring) (i : nat) :
  (length t ≤ i)%nat → arrayGet t i = JUndefined.
Proof. intros H. unfold arrayGet. by rewrite lookup_ge_None_2. Qed.

Lemma arrayGet_lookup (t : list jsstring) (i : nat) (x : jsstring) :
  t !! i = Some x → arrayGet t i = JStr x.
Proof. intros H. unfold arrayGet. by rewrite H. Qed.

Section Generator.
Context {prims : StringPrims}.


(** A run of the outer loop that ends normally has pushed one row per
    string, each computed from the parsed open note. *)
Lemma stringLoop_inr (t : list jsstring) sc (todo s : nat) acc fb :
  stringLoop t sc todo s acc = inr fb →
  ∃ rows, fb = acc ++ rows ∧ length rows = todo
    ∧ ∀ i, (i < todo)%nat →
        ∃ o, parseNoteToSemitone (arrayGet t (s + i)) = Some o
           ∧ rows !! i = Some (fretLoop sc o 12).
Proof.
  revert s acc. induction todo as [|todo IH]; intros s acc; cbn [stringLoop].
  - intros [= <-]. exists []. rewrite app_nil_r.
    split; [done|]. split; [done|]. lia.
  - destruct (parseNoteToSemitone (arrayGet t s)) as [o|] eqn:Ho; [|done].
    intros (rows & -> & Hlen & Hrows)%IH.
    exists (fretLoop sc o 12 :: rows). rewrite <- app_assoc.
    split; [done|]. split; [by rewrite <- Hlen|].
    intros [|i] Hi.
    + exists o. by rewrite Nat.add_0_r.
    + destruct (Hrows i ltac:(lia)) as (o' & Ho' & Hrow).
      exists o'. split; [|done].
      by replace (s + S i)%nat with (S s + i)%nat by lia.
Qed.

(** A run stops at the first string whose open note does not parse. *)
Lemma stringLoop_inl (t : list jsstring) sc (todo s : nat) acc (k : nat) :
  (k < todo)%nat →
  (∀ i, (i < k)%nat → is_Some (parseNoteToSemitone (arrayGet t (s + i)))) →
  parseNoteToSemitone (arrayGet t (s + k)) = None →
  stringLoop t sc todo s acc
    = inl (errInvalidTuningNote (arrayGet t (s + k))).
Proof.
  revert s acc k. induction todo as [|todo IH]; intros s acc k Hk Hlt Hno;
    [lia|]. cbn [stringLoop].
  destruct k as [|k].
  - rewrite Nat.add_0_r in Hno. rewrite Hno. by rewrite Nat.add_0_r.
  - destruct (Hlt 0%nat ltac:(lia)) as [o Ho].
    rewrite Nat.add_0_r in Ho. rewrite Ho.
    replace (s + S k)%nat with (S s + k)%nat in * by lia.
    apply IH; [lia| |done].
    intros i Hi. specialize (Hlt (S i) ltac:(lia)).
    by replace (s + S i)%nat with (S s + i)%nat in Hlt by lia.
Qed.

Lemma stringLoop_all_ok (t : list jsstring) sc (todo s : nat) acc :
  (∀ i, (i < todo)%nat →
        is_Some (parseNoteToSemitone (arrayGet t (s + i)))) →
  ∃ rows, stringLoop t sc todo s acc = inr (acc ++ rows)
        ∧ length rows = todo.
Proof.
  revert s acc. induction todo as [|todo IH]; intros s acc H; cbn [stringLoop].
  - exists []. by rewrite app_nil_r.
  - destruct (H 0%nat ltac:(lia)) as [o Ho].
    rewrite Nat.add_0_r in Ho. rewrite Ho.
    destruct (IH (S s) (acc ++ [fretLoop sc o 12])) as (rows & Hrows & Hlen).
    { intros i Hi. specialize (H (S i) ltac:(lia)).
      by replace (s + S i)%nat with (S s + i)%nat in H by lia. }
    exists (fretLoop sc o 12 :: rows). rewrite Hrows, <- app_assoc.
    split; [done|]. simpl. by rewrite Hlen.
Qed.

(** Any bad open note among the strings visited makes the loop fail, at
    that string or at an earlier one. *)
Lemma stringLoop_bad_note (t : list jsstring) sc (todo s : nat) acc (k : nat) :
  (k < todo)%nat →
  parseNoteToSemitone (arrayGet t (s + k)) = None →
  ∃ k', (k' ≤ k)%nat
    ∧ parseNoteToSemitone (arrayGet t (s + k')) = None
    ∧ stringLoop t sc todo s acc
        = inl (errInvalidTuningNote (arrayGet t (s + k'))).
Proof.
  revert s acc k. induction todo as [|todo IH]; intros s acc k Hk Hno;
    [lia|]. cbn [stringLoop].
  destruct (parseNoteToSemitone (arrayGet t s)) as [o|] eqn:Ho.
  - destruct k as [|k]; [rewrite Nat.add_0_r in Hno; congruence|].
    destruct (IH (S s) (acc ++ [fretLoop sc o 12]) k) as (k' & Hk' & Hno' & Hrun).
    { lia. }
    { by replace (S s + k)%nat with (s + S k)%nat by lia. }
    exists (S k'). replace (s + S k')%nat with (S s + k')%nat by lia.
    split; [lia | done].
  - exists 0%nat. rewrite Nat.add_0_r. split; [lia | done].
Qed.

End Generator.

(** ** The generator *)

Lemma scaleLookup_row (scaleType : jsstring) (r : Z) (l : list jsstring) :
  scaleLookup scaleType r = Some l → scaleRowOk l.
Proof.
  unfold scaleLookup. repeat case_decide; [| |done].
  - apply naturalMinorScales_row.
  - apply harmonicMinorScales_row.
Qed.

Lemma scaleLookup_total (scaleType : jsstring) (r : Z) :
  validScaleType scaleType → 0 ≤ r < 12 →
  is_Some (scaleLookup scaleType r).
Proof.
  intros Hst [Hn Hh]%scale_tables_total. unfold scaleLookup.
  destruct Hst as [-> | ->].
  - by rewrite decide_True.
  - rewrite decide_False by by vm_compute. by rewrite decide_True.
Qed.

Section GeneratorSteps.
Context {prims : StringPrims}.

Lemma parseAll_ascii (l : list jsstring) :
  Forall (λ t, isAscii t = true) l →
  (λ n, parseNoteToSemitone (JStr n)) <$> l
    = (λ n, parseNoteToSemitone (prims := asciiPrims) (JStr n)) <$> l.
Proof.
  intros H. apply Forall_fmap_ext_1. eapply Forall_impl; [exact H|].
  intros t Ht. by apply parseNote_ascii.
Qed.

Lemma stringLoop_ascii (t : list jsstring) sc (todo s : nat) acc :
  Forall (λ x, isAscii x = true) t →
  stringLoop t sc todo s acc
    = stringLoop (prims := asciiPrims) t sc todo s acc.
Proof.
  intros Ht. revert s acc.
  induction todo as [|todo IH]; intros s acc; cbn [stringLoop]; [done|].
  rewrite (parseNote_ascii (arrayGet t s)).
  - destruct (parseNoteToSemitone (arrayGet t s)); [apply IH | done].
  - unfold arrayGet. destruct (t !! s) as [x|] eqn:Hx; [|done].
    by apply (Forall_lookup_1 _ _ _ _ Ht Hx).
Qed.

(** The generator, with the choice of the table written [scaleLookup]. *)
Lemma generate_unfold (n : nat) (t : list jsstring) (root : jsval)
    (st : jsstring) :
  generateScaleDiagram n t root st =
    match parseNoteToSemitone root with
    | None => Error errInvalidKey
    | Some r =>
        if decide (validScaleType st) then
          match scaleLookup st r with
          | None => Error errScaleNotFound
          | Some scaleNotes =>
              let sc := (λ x, parseNoteToSemitone (JStr x)) <$> scaleNotes in
              match stringLoop t sc n 0 [] with
              | inl message => Error message
              | inr fb =>
                  Diagram {| scale := scaleNotes; fretboard := fb;
                             rootSemitone := r; scaleSemitones := sc |}
              end
          end
        else Error errInvalidScaleType
    end.
Proof.
  unfold generateScaleDiagram, scaleLookup, validScaleType.
  destruct (parseNoteToSemitone root) as [r|]; [|done].
  destruct (decide (st = js "natural")) as [->|Hn].
  { rewrite decide_True by by left. done. }
  destruct (decide (st = js "harmonic")) as [->|Hh].
  { rewrite decide_True by by right. done. }
  rewrite decide_False by tauto. done.
Qed.

End GeneratorSteps.

Section GeneratorSpec.
Context {prims : StringPrims}.

(** The generator does not depend on the engine's case tables when the
    root note and the tuning are ASCII text. *)
Lemma generate_ascii (n : nat) (t : list jsstring) (root : jsval)
    (st : jsstring) :
  isAscii (toStr root) = true →
  Forall (λ x, isAscii x = true) t →
  generateScaleDiagram n t root st
    = generateScaleDiagram (prims := asciiPrims) n t root st.
Proof.
  intros Hroot Ht.
  rewrite generate_unfold, (generate_unfold (prims := asciiPrims)).
  rewrite (parseNote_ascii root) by done.
  destruct (parseNoteToSemitone root) as [r|]; [|done].
  case_decide; [|done].
  destruct (scaleLookup st r) as [l|] eqn:Hl; [|done].
  destruct (scaleLookup_row _ _ _ Hl) as (_ & Hascii & _).
  cbv zeta. rewrite (parseAll_ascii l), stringLoop_ascii by done. done.
Qed.

(** What a successful call has computed. *)
Lemma generate_Diagram_inv (n : nat) (t : list jsstring) (root : jsval)
    (st : jsstring) (d : diagram) :
  generateScaleDiagram n t root st = Diagram d →
  parseNoteToSemitone root = Some (rootSemitone d)
  ∧ validScaleType st
  ∧ scaleLookup st (rootSemitone d) = Some (scale d)
  ∧ scaleSemitones d = (λ x, parseNoteToSemitone (JStr x)) <$> scale d
  ∧ stringLoop t (scaleSemitones d) n 0 [] = inr (fretboard d).
Proof.
  rewrite generate_unfold.
  destruct (parseNoteToSemitone root) as [r|]; [|done].
  case_decide; [|done].
  destruct (scaleLookup st r) as [l|] eqn:Hl; [|done]. cbv zeta.
  destruct (stringLoop _ _ _ _ _) as [m|fb] eqn:Hloop; [done|].
  by intros [= <-].
Qed.

(** A call whose root note and scale type are accepted reaches the
    loop over the strings. *)
Lemma generate_reaches_loop (n : nat) (t : list jsstring) (root : jsval)
    (st : jsstring) :
  is_Some (parseNoteToSemitone root) → validScaleType st →
  ∃ r scaleNotes,
    parseNoteToSemitone root = Some r
    ∧ scaleLookup st r = Some scaleNotes
    ∧ generateScaleDiagram n t root st =
        let sc := (λ x, parseNoteToSemitone (JStr x)) <$> scaleNotes in
        match stringLoop t sc n 0 [] with
        | inl message => Error message
        | inr fb =>
            Diagram {| scale := scaleNotes; fretboard := fb;
                       rootSemitone := r; scaleSemitones := sc |}
        end.
Proof.
  intros [r Hr] Hst.
  destruct (scaleLookup_total st r Hst (parseNote_range _ _ Hr)) as [l Hl].
  exists r, l. repeat split; [done..|].
  rewrite generate_unfold, Hr, decide_True, Hl by done. done.
Qed.

(** C1: on a six-string guitar in standard tuning, C harmonic minor is
    C D Eb F G Ab B; on the lowest string fret 3 shows G, in the scale,
    pitch class 7 and not the root, and fret 8 shows C, in the scale,
    pitch class 0, the root. *)
Theorem harmonic_C_on_standard_guitar :
  ∃ d,
    generateScaleDiagram 6 (js <$> ["E"; "A"; "D"; "G"; "B"; "E"]%string)
      (JStr (js "C")) (js "harmonic") = Diagram d
    ∧ scale d = js <$> ["C"; "D"; "Eb"; "F"; "G"; "Ab"; "B"]%string
    ∧ cellAt (fretboard d) 0 3 = Some (JStr (js "G"), true)
    ∧ parseNoteToSemitone (JStr (js "G")) = Some 7
    ∧ rootSemitone d ≠ 7
    ∧ cellAt (fretboard d) 0 8 = Some (JStr (js "C"), true)
    ∧ parseNoteToSemitone (JStr (js "C")) = Some 0
    ∧ rootSemitone d = 0.
Proof.
  assert (parseNoteToSemitone (JStr (js "G")) = Some 7) as HG
    by by rewrite parseNote_ascii.
  assert (parseNoteToSemitone (JStr (js "C")) = Some 0) as HC
    by by rewrite parseNote_ascii.
  rewrite generate_ascii, HG, HC by by_compute.
  eexists. split; [reflexivity|]. by vm_compute.
Qed.

Lemma generate_succeeds (n : nat) (t : list jsstring) (root : jsval)
    (st : jsstring) :
  is_Some (parseNoteToSemitone root) → validScaleType st →
  (∀ i, (i < n)%nat → is_Some (parseNoteToSemitone (arrayGet t i))) →
  ∃ d, generateScaleDiagram n t root st = Diagram d
     ∧ length (fretboard d) = n.
Proof.
  intros Hroot Hst Ht.
  destruct (generate_reaches_loop n t root st Hroot Hst)
    as (r & l & Hr & Hl & ->). cbv zeta.
  edestruct (stringLoop_all_ok t) as (rows & -> & Hlen); [exact Ht|].
  eexists. split; [reflexivity|]. done.
Qed.

Lemma fretCell_spec (sc : list (option Z)) (o fret : Z) :
  0 ≤ o < 12 → 0 ≤ fret →
  ∃ name,
    noteNamesSharp !! Z.to_nat ((o + fret) `mod` 12) = Some name
    ∧ fretCell sc o fret
        = (JStr name, bool_decide (Some ((o + fret) `mod` 12) ∈ sc)).
Proof.
  intros Ho Hf. unfold fretCell, includes, arrayGet.
  rewrite Z.rem_mod_nonneg by lia.
  pose proof (Z.mod_pos_bound (o + fret) 12 ltac:(lia)) as Hb.
  destruct (lookup_lt_is_Some_2 noteNamesSharp
              (Z.to_nat ((o + fret) `mod` 12))) as [name Hname].
  { change (length noteNamesSharp) with 12%nat. lia. }
  exists name. by rewrite Hname.
Qed.

(** C2: a successful call returns one row per string, low string first;
    each row has the twelve cells of frets 1 to 12; the cell of string
    [s] at fret [f] shows the sharp-spelled name of pitch class
    (open note of [s] + [f]) mod 12, taken from [noteNamesSharp], and its
    flag says whether one of the scale's names parses to that pitch
    class. *)
Theorem fretboard_cells (n : nat) (t : list jsstring) (root : jsval)
    (st : jsstring) (d : diagram) :
  generateScaleDiagram n t root st = Diagram d →
  length (fretboard d) = n
  ∧ ∀ s, (s < n)%nat →
      ∃ openSemitone row,
        parseNoteToSemitone (arrayGet t s) = Some openSemitone
        ∧ fretboard d !! s = Some row
        ∧ length row = 12%nat
        ∧ ∀ fret : nat, (1 ≤ fret ≤ 12)%nat →
            ∃ name inScale,
              cellAt (fretboard d) s fret = Some (JStr name, inScale)
              ∧ noteNamesSharp
                  !! Z.to_nat ((openSemitone + Z.of_nat fret) `mod` 12)
                  = Some name
              ∧ name ∈ noteNamesSharp
              ∧ (inScale = true ↔
                   ∃ note, note ∈ scale d
                     ∧ parseNoteToSemitone (JStr note)
                         = Some ((openSemitone + Z.of_nat fret) `mod` 12)).
Proof.
  intros (Hroot & Hst & Hlk & Hsc & Hloop)%generate_Diagram_inv.
  apply stringLoop_inr in Hloop as (rows & Hfb & Hlen & Hrows).
  cbn [app] in Hfb. subst rows. split; [done|].
  intros s Hs. destruct (Hrows s Hs) as (o & Ho & Hrow).
  cbn [Nat.add] in Ho. exists o, (fretLoop (scaleSemitones d) o 12).
  split; [done|]. split; [done|]. split.
  { by rewrite fretLoop_map, length_fmap, length_seqZ. }
  intros fret Hfret.
  destruct (fretCell_spec (scaleSemitones d) o (Z.of_nat fret))
    as (name & Hname & Hcell).
  { by eapply parseNote_range. } { lia. }
  exists name,
    (bool_decide (Some ((o + Z.of_nat fret) `mod` 12) ∈ scaleSemitones d)).
  split; [|split; [done|split]].
  - unfold cellAt. rewrite Hrow. cbn.
    rewrite fretLoop_map, list_lookup_fmap, lookup_seqZ_lt by lia. cbn.
    rewrite <- Hcell. do 2 f_equal. lia.
  - by eapply list_elem_of_lookup_2.
  - rewrite bool_decide_eq_true, Hsc, list_elem_of_fmap.
    split; intros (note & ? & ?); exists note; done.
Qed.

(** C5: for each root pitch class 0..11 and each of the two scale types
    the table row has seven names, they parse to seven different pitch
    classes, every successful call with that root and type returns that
    row as its scale, and such calls exist. *)
Theorem scale_has_seven_pitch_classes (r : Z) (st : jsstring) :
  0 ≤ r < 12 → validScaleType st →
  ∃ scaleNotes,
    scaleLookup st r = Some scaleNotes
    ∧ length scaleNotes = 7%nat
    ∧ Forall is_Some ((λ x, parseNoteToSemitone (JStr x)) <$> scaleNotes)
    ∧ NoDup ((λ x, parseNoteToSemitone (JStr x)) <$> scaleNotes)
    ∧ (∀ n t root d,
         parseNoteToSemitone root = Some r →
         generateScaleDiagram n t root st = Diagram d →
         scale d = scaleNotes)
    ∧ (∃ root d,
         parseNoteToSemitone root = Some r
         ∧ generateScaleDiagram 6
             (js <$> ["E"; "A"; "D"; "G"; "B"; "E"]%string) root st
           = Diagram d).
Proof.
  intros Hr Hst.
  destruct (scaleLookup_total st r Hst Hr) as [l Hl]. exists l.
  destruct (scaleLookup_row _ _ _ Hl) as (Hlen & Hascii & Hsome & Hnodup).
  rewrite parseAll_ascii by done. repeat split; try done.
  - intros n t root d Hroot (Hroot' & _ & Hlk & _)%generate_Diagram_inv.
    congruence.
  - destruct (noteNamesSharp_lookup r Hr) as (name & _ & Hparse & Hname).
    assert (parseNoteToSemitone (JStr name) = Some r) as Hroot
      by by rewrite parseNote_ascii.
    destruct (generate_succeeds 6
                (js <$> ["E"; "A"; "D"; "G"; "B"; "E"]%string)
                (JStr name) st) as (d & Hd & _); [by eexists|done| |by eauto].
    intros i Hi. rewrite parseNote_ascii.
    + do 6 (destruct i as [|i]; [by eexists|]). lia.
    + do 6 (destruct i as [|i]; [done|]). lia.
Qed.

(** C8: when the open note of a string [s] below the string count does
    not parse, the call returns an error object and never a fretboard;
    when moreover the root note and the scale type are accepted and the
    strings before [s] parse, the message is the tuning-note message
    followed by that string's note text. *)
Theorem bad_open_note_aborts (n : nat) (t : list jsstring) (root : jsval)
    (st : jsstring) (s : nat) (note : jsstring) :
  (s < n)%nat →
  t !! s = Some note →
  parseNoteToSemitone (JStr note) = None →
  (∃ message, generateScaleDiagram n t root st = Error message)
  ∧ ((∀ i, (i < s)%nat → is_Some (parseNoteToSemitone (arrayGet t i))) →
     is_Some (parseNoteToSemitone root) → validScaleType st →
     generateScaleDiagram n t root st = Error (tuningNotePrefix ++ note)).
Proof.
  intros Hs Hnote Hbad.
  assert (arrayGet t s = JStr note) as Hget by by apply arrayGet_lookup.
  split.
  - rewrite generate_unfold.
    destruct (parseNoteToSemitone root) as [r|]; [|by eexists].
    case_decide; [|by eexists].
    destruct (scaleLookup st r); [|by eexists]. cbv zeta.
    edestruct (stringLoop_bad_note t) as (k & _ & _ & ->);
      [exact Hs|cbn [Nat.add]; by rewrite Hget|].
    by eexists.
  - intros Hbefore Hroot Hst.
    destruct (generate_reaches_loop n t root st Hroot Hst)
      as (r & l & _ & _ & ->).
    cbv zeta.
    rewrite (stringLoop_inl t _ n 0 [] s); cbn [Nat.add];
      [by rewrite Hget|done|done|by rewrite Hget].
Qed.


End GeneratorSpec.

(** ** Splitting at white space *)

Lemma splitGo_nonempty (b : bool) (cur s : jsstring) :
  splitGo b cur s ≠ [].
Proof.
  revert b cur. induction s as [|c s IH]; intros b cur; simpl; [done|].
  destruct (isWhiteSpace c); [destruct b|]; [apply IH|done|apply IH].
Qed.

Lemma wordsGo_all_ws (s : jsstring) :
  Forall (λ c, isWhiteSpace c = true) s → wordsGo [] s = [].
Proof. induction 1 as [|c s Hc _ IH]; simpl; [done|]. by rewrite Hc. Qed.

Lemma wordsGo_app_ws (cur l suf : jsstring) :
  Forall (λ c, isWhiteSpace c = true) suf →
  wordsGo cur (l ++ suf) = wordsGo cur l.
Proof.
  intros Hsuf. revert cur. induction l as [|c l IH]; intros cur.
  - destruct Hsuf as [|c suf Hc Hsuf]; [done|]. simpl.
    rewrite Hc, (wordsGo_all_ws suf) by done. done.
  - simpl. destruct (isWhiteSpace c); [|apply IH].
    by rewrite (IH []).
Qed.

Lemma wordsGo_run (cur tok rest : jsstring) :
  Forall (λ c, isWhiteSpace c = false) tok →
  wordsGo cur (tok ++ rest) = wordsGo (cur ++ tok) rest.
Proof.
  intros H. revert cur. induction H as [|c tok Hc _ IH]; intros cur.
  - by rewrite app_nil_r.
  - simpl. rewrite Hc, IH. by rewrite <- app_assoc.
Qed.

Lemma words_trimStart (s : jsstring) : words (trimStart s) = words s.
Proof.
  unfold words, trimStart. induction s as [|c s IH]; simpl; [done|].
  destruct (isWhiteSpace c) eqn:Hc; [done|]. simpl. by rewrite Hc.
Qed.

Lemma words_trimEnd (s : jsstring) : words (trimEnd s) = words s.
Proof.
  destruct (trimEnd_split s) as [suf [Hs Hsuf]].
  rewrite Hs at 2. unfold words. by rewrite wordsGo_app_ws.
Qed.

Lemma words_trim (s : jsstring) : words (trim s) = words s.
Proof. unfold trim. by rewrite words_trimEnd, words_trimStart. Qed.

(** The non-empty pieces of the split are the tokens. *)
Lemma filter_splitGo (s : jsstring) :
  (∀ cur, filter (λ t, t ≠ []) (splitGo false cur s) = wordsGo cur s)
  ∧ filter (λ t, t ≠ []) (splitGo true [] s) = wordsGo [] s.
Proof.
  induction s as [|c s [IHf IHt]]; simpl.
  - split; [|done]. by intros [|x cur].
  - destruct (isWhiteSpace c) eqn:Hc.
    + split; [|done]. intros [|x cur].
      * by rewrite filter_cons_False by naive_solver.
      * rewrite filter_cons_True by done. by rewrite IHt.
    + split; [|apply IHf]. intros cur. apply IHf.
Qed.

Lemma filter_splitWs (s : jsstring) :
  filter (λ t, t ≠ []) (splitWs s) = words s.
Proof. apply filter_splitGo. Qed.

(** On a text that neither starts nor ends with white space the split
    has no empty piece: it is the list of tokens. *)
Lemma splitGo_words (s : jsstring) :
  (s = [] ∨ ∃ x, last s = Some x ∧ isWhiteSpace x = false) →
  (∀ cur, (cur ≠ [] ∨ ∃ c s', s = c :: s' ∧ isWhiteSpace c = false) →
          splitGo false cur s = wordsGo cur s)
  ∧ (s ≠ [] → splitGo true [] s = wordsGo [] s).
Proof.
  induction s as [|c s IH]; intros Hlast.
  { split; [|done]. intros cur [Hcur | (c & s' & ? & _)]; [|done].
    simpl. by destruct cur. }
  assert (isWhiteSpace c = true →
          s ≠ [] ∧ ∃ x, last s = Some x ∧ isWhiteSpace x = false) as Hws.
  { intros Hc. destruct Hlast as [?|(x & Hx & Hnx)]; [done|].
    destruct s as [|c' s]; [simpl in Hx; congruence|].
    split; [done|]. exists x. by rewrite last_cons_cons in Hx. }
  assert (s = [] ∨ ∃ x, last s = Some x ∧ isWhiteSpace x = false) as Hlast'.
  { destruct Hlast as [?|(x & Hx & Hnx)]; [done|].
    destruct s as [|c' s]; [by left|]. right. exists x.
    by rewrite last_cons_cons in Hx. }
  destruct (IH Hlast') as [IHf IHt]. simpl.
  destruct (isWhiteSpace c) eqn:Hc.
  - destruct (Hws eq_refl) as [Hne _]. split.
    + intros cur [Hcur | (c0 & s' & [= <- <-] & Hc0)]; [|congruence].
      destruct cur; [done|]. by rewrite IHt.
    + intros _. by apply IHt.
  - split.
    + intros cur _. apply IHf. left. by destruct cur.
    + intros _. apply IHf. by left.
Qed.

Lemma splitWs_trim (s : jsstring) :
  trim s ≠ [] → splitWs (trim s) = words s.
Proof.
  intros Hne. rewrite <- words_trim. unfold splitWs, words.
  destruct (trim s) as [|c t] eqn:Ht; [done|].
  rewrite <- Ht. apply splitGo_words.
  - right. destruct (exists_last (l := trim s)) as (l & x & Hl);
      [by rewrite Ht|].
    exists x. rewrite Hl, last_snoc. split; [done|].
    by eapply trim_last.
  - right. exists c, t. split; [done|]. by eapply trim_head.
Qed.

Lemma wordsGo_ascii (cur s : jsstring) :
  isAscii cur = true → isAscii s = true →
  Forall (λ t, isAscii t = true) (wordsGo cur s).
Proof.
  rewrite (isAscii_Forall s). intros Hcur Hs. revert cur Hcur.
  induction Hs as [|c s Hc _ IH]; intros cur Hcur; simpl.
  - destruct cur; by repeat constructor.
  - destruct (isWhiteSpace c).
    + destruct cur; [by apply IH | constructor; [done | by apply IH]].
    + apply IH. apply isAscii_Forall, Forall_app_2.
      * by apply isAscii_Forall.
      * by repeat constructor.
Qed.

(** ** The "drop" prefix *)

Lemma matchIgnoreCase_upper (c letter : N) :
  (97 ≤ letter ≤ 122)%N →
  matchIgnoreCase c letter = true ↔ asciiUpper c = asciiUpper letter.
Proof.
  intros Hl. unfold matchIgnoreCase, asciiUpper.
  rewrite orb_true_iff, !N.eqb_eq.
  destruct (N.leb_spec 97 letter); [|lia].
  destruct (N.leb_spec letter 122); [|lia]. cbn [andb].
  destruct (N.leb_spec 97 c), (N.leb_spec c 122); cbn [andb]; lia.
Qed.

Lemma matchIgnoreCase_not_ws (c letter : N) :
  letter ∈ js "drop" →
  matchIgnoreCase c letter = true → isWhiteSpace c = false.
Proof.
  unfold matchIgnoreCase. rewrite orb_true_iff, !N.eqb_eq.
  change (js "drop") with [100; 114; 111; 112]%N.
  rewrite !elem_of_cons, elem_of_nil.
  intros [->|[->|[->|[->|[]]]]] [->| ->]; by vm_compute.
Qed.

Lemma isDropForm_spec (t : jsstring) :
  isDropForm t = true ↔ DropPrefixed t.
Proof.
  split.
  - destruct t as [|d [|r [|o [|p [|w rest]]]]]; try done. cbn [isDropForm].
    rewrite !andb_true_iff, !matchIgnoreCase_upper by by vm_compute.
    intros ((((Hd & Hr) & Ho) & Hp) & Hw).
    exists [d; r; o; p], w, rest. split; [done|]. split; [|done].
    cbn. by rewrite Hd, Hr, Ho, Hp.
  - intros (pre & w & rest & -> & Hpre & Hw).
    change (js "DROP") with [68; 82; 79; 80]%N in Hpre.
    destruct pre as [|d [|r [|o [|p [|]]]]]; try done.
    cbn in Hpre. injection Hpre as Hd Hr Ho Hp. cbn [app isDropForm].
    rewrite !andb_true_iff, !matchIgnoreCase_upper by by vm_compute.
    done.
Qed.

Lemma isDropForm_parts (t : jsstring) :
  isDropForm t = true → (2 ≤ length (splitWs t))%nat.
Proof.
  destruct t as [|d [|r [|o [|p [|w rest]]]]]; try done. cbn [isDropForm].
  rewrite !andb_true_iff. intros ((((Hd & Hr) & Ho) & Hp) & Hw).
  apply matchIgnoreCase_not_ws in Hd, Hr, Ho, Hp; [|by_compute..].
  unfold splitWs. cbn [splitGo]. rewrite Hd, Hr, Ho, Hp, Hw. cbn [length].
  pose proof (splitGo_nonempty true [] rest) as Hne.
  destruct (splitGo true [] rest); [done | simpl; lia].
Qed.

(** The text "Drop ", a token, and whatever follows it. *)
Lemma trim_drop_text (tok rest : jsstring) :
  tok ≠ [] → Forall (λ c, isWhiteSpace c = false) tok →
  ∃ tail, trim (js "Drop " ++ tok ++ rest) = js "Drop " ++ tok ++ tail.
Proof.
  intros Hne Htok. unfold trim, trimStart.
  change (js "Drop ") with (68 :: [114; 111; 112; 32])%N.
  rewrite <- app_comm_cons, dropWhile_none by done.
  destruct (exists_last Hne) as (tok' & x & ->).
  apply Forall_app in Htok as [_ Hx]. apply Forall_inv in Hx.
  rewrite app_comm_cons, !app_assoc, trimEnd_app.
  destruct (trimEnd rest) as [|y tail].
  - exists []. rewrite trimEnd_snoc by done. by rewrite app_nil_r.
  - exists (y :: tail). by rewrite <- !app_assoc.
Qed.

Lemma words_drop_text (tok rest : jsstring) :
  tok ≠ [] → Forall (λ c, isWhiteSpace c = false) tok →
  (rest = [] ∨ ∃ w r, rest = w :: r ∧ isWhiteSpace w = true) →
  words (js "Drop " ++ tok ++ rest) !! 1%nat = Some tok.
Proof.
  intros Hne Htok Hrest. unfold words.
  change (js "Drop ") with (js "Drop" ++ [32]%N).
  rewrite <- app_assoc, wordsGo_run by by_compute.
  change ([] ++ js "Drop") with (68 :: [114; 111; 112])%N.
  cbn [app wordsGo]. change (isWhiteSpace 32) with true. cbv iota.
  rewrite wordsGo_run by done. cbn [app lookup list_lookup].
  destruct Hrest as [-> | (w & r & -> & Hw)]; cbn [wordsGo].
  - by destruct tok.
  - rewrite Hw. by destruct tok.
Qed.

(** ** The standard tunings *)

Lemma standardTunings_Some (n : nat) (base : list jsstring) :
  standardTunings !! n = Some base →
  (4 ≤ n ≤ 8)%nat ∧ length base = n ∧ Forall (λ t, isAscii t = true) base.
Proof.
  intros H. apply (elem_of_list_to_map_2 (M := gmap nat)) in H.
  change ((4 ≤ (n, base).1 ≤ 8)%nat ∧ length (n, base).2 = (n, base).1
          ∧ Forall (λ t, isAscii t = true) (n, base).2).
  revert H. generalize (n, base). apply Forall_forall. by_compute.
Qed.

Lemma standardTunings_is_Some (n : nat) :
  (4 ≤ n ≤ 8)%nat ↔ is_Some (standardTunings !! n).
Proof.
  split.
  - intros H. assert (n ∈ [4; 5; 6; 7; 8]%nat) as Hn
      by (rewrite !elem_of_cons; lia).
    clear H. revert n Hn. apply Forall_forall. by_compute.
  - intros [base Hbase]. by apply standardTunings_Some in Hbase as [? _].
Qed.

(** ** The tuning resolver *)

Section TuningSteps.
Context {prims : StringPrims}.

Lemma normalizeToken_ascii (t : jsstring) :
  isAscii t = true →
  normalizeToken t = normalizeToken (prims := asciiPrims) t.
Proof. intros H. unfold normalizeToken. by rewrite toUpperCase_ascii. Qed.

(** The Drop branch: the second token replaces the lowest string of the
    registered tuning. *)
Lemma parseTuning_drop (s : jsstring) (n : nat) :
  isDropForm (trim s) = true →
  ∃ tok,
    words s !! 1%nat = Some tok
    ∧ parseTuning (JStr s) n
        = (λ base, <[0%nat := normalizeToken tok]> base)
            <$> standardTunings !! n.
Proof.
  intros Hdrop.
  assert (trim s ≠ []) as Hne by (by intros Ht; rewrite Ht in Hdrop).
  pose proof (isDropForm_parts _ Hdrop) as Hparts.
  rewrite splitWs_trim in Hparts by done.
  destruct (lookup_lt_is_Some_2 (words s) 1%nat) as [tok Htok]; [lia|].
  exists tok. split; [done|].
  unfold parseTuning. destruct s as [|c s]; [done|].
  cbn [falsy toStr]. rewrite Hdrop, splitWs_trim by done.
  rewrite bool_decide_eq_false_2 by lia. rewrite Htok. cbn [default].
  destruct (standardTunings !! n) as [base|] eqn:Hbase; [|done].
  apply standardTunings_Some in Hbase as (Hn & Hlen & _).
  destruct base; [simpl in Hlen; lia | done].
Qed.

(** The explicit branch: the tokens, normalised, when there are exactly
    [n] of them. *)
Lemma parseTuning_explicit (s : jsstring) (n : nat) :
  s ≠ [] → isDropForm (trim s) = false →
  parseTuning (JStr s) n
    = if decide (length (words s) = n)
      then Some (normalizeToken <$> words s) else None.
Proof.
  intros Hs Hdrop. unfold parseTuning. destruct s as [|c s]; [done|].
  cbn [falsy toStr]. rewrite Hdrop, filter_splitWs, words_trim.
  case_decide.
  - by rewrite bool_decide_eq_false_2 by naive_solver.
  - by rewrite bool_decide_eq_true_2.
Qed.

End TuningSteps.

Section TuningResolver.
Context {prims : StringPrims}.

(** On ASCII text the resolver does not depend on the engine's case
    tables. *)
Lemma parseTuning_ascii (input : jsval) (n : nat) :
  isAscii (toStr input) = true →
  parseTuning input n = parseTuning (prims := asciiPrims) input n.
Proof.
  intros Hascii. destruct input as [|s]; [done|]. cbn [toStr] in Hascii.
  destruct s as [|c s]; [done|].
  assert (Forall (λ t, isAscii t = true) (words (c :: s))) as Hwords
    by by apply wordsGo_ascii.
  destruct (isDropForm (trim (c :: s))) eqn:Hdrop.
  - destruct (parseTuning_drop (c :: s) n Hdrop) as (tok & Htok & ->).
    destruct (parseTuning_drop (prims := asciiPrims) (c :: s) n Hdrop)
      as (tok' & Htok' & ->).
    assert (tok' = tok) as -> by congruence.
    rewrite normalizeToken_ascii; [done|].
    by apply (Forall_lookup_1 _ _ _ _ Hwords Htok).
  - rewrite !parseTuning_explicit by done. case_decide; [|done].
    f_equal. apply Forall_fmap_ext_1.
    eapply Forall_impl; [exact Hwords|]. intros t Ht.
    by apply normalizeToken_ascii.
Qed.


(** C7: the resolver answers [null] for a missing or empty input, for a
    Drop-form input when no standard tuning is registered for the string
    count, for an input of fewer than two tokens (the word "Drop" alone)
    on two strings or more, and for an explicit list whose number of
    tokens is not the string count; a Drop-form input itself always has
    two tokens or more; "E A D G B E" resolves on six strings and
    "E A D G" does not. *)
Theorem parseTuning_invalid (n : nat) :
  parseTuning JUndefined n = None
  ∧ parseTuning (JStr []) n = None
  ∧ (∀ s, DropPrefixed (trim s) → ¬ (4 ≤ n ≤ 8)%nat →
          parseTuning (JStr s) n = None)
  ∧ (∀ s, (length (words s) < 2)%nat → (2 ≤ n)%nat →
          parseTuning (JStr s) n = None)
  ∧ (∀ s, ¬ DropPrefixed (trim s) → length (words s) ≠ n →
          parseTuning (JStr s) n = None)
  ∧ (∀ s, DropPrefixed (trim s) → (2 ≤ length (words s))%nat)
  ∧ parseTuning (JStr (js "E A D G B E")) 6
      = Some (js <$> ["E"; "A"; "D"; "G"; "B"; "E"]%string)
  ∧ parseTuning (JStr (js "E A D G")) 6 = None.
Proof.
  assert (∀ s, isDropForm (trim s) = false → length (words s) ≠ n →
               parseTuning (JStr s) n = None) as Hexplicit.
  { intros s Hdrop Hlen. destruct s as [|c s]; [done|].
    rewrite parseTuning_explicit by done. by rewrite decide_False. }
  assert (∀ s, isDropForm (trim s) = true →
               (2 ≤ length (words s))%nat) as Hparts.
  { intros s Hdrop. rewrite <- splitWs_trim.
    - by apply isDropForm_parts.
    - intros Ht. by rewrite Ht in Hdrop. }
  split; [done|]. split; [done|]. split; [|split; [|split; [|split]]].
  - intros s Hdrop%isDropForm_spec Hn.
    destruct (parseTuning_drop s n Hdrop) as (tok & _ & ->).
    destruct (standardTunings !! n) as [base|] eqn:Hbase; [|done].
    by apply standardTunings_Some in Hbase as [? _].
  - intros s Hlen Hn. apply Hexplicit; [|lia].
    destruct (isDropForm (trim s)) eqn:Hdrop; [|done].
    specialize (Hparts s Hdrop). lia.
  - intros s Hdrop Hlen. apply Hexplicit; [|done].
    rewrite <- isDropForm_spec in Hdrop. by destruct (isDropForm (trim s)).
  - intros s Hdrop%isDropForm_spec. by apply Hparts.
  - by rewrite !parseTuning_ascii.
Qed.

(** The Drop branch on the text "Drop ", a token, and anything after
    it. *)
Lemma parseTuning_drop_text (tok rest : jsstring) (n : nat) :
  tok ≠ [] → Forall (λ c, isWhiteSpace c = false) tok →
  (rest = [] ∨ ∃ w r, rest = w :: r ∧ isWhiteSpace w = true) →
  parseTuning (JStr (js "Drop " ++ tok ++ rest)) n
    = (λ base, <[0%nat := normalizeToken tok]> base)
        <$> standardTunings !! n.
Proof.
  intros Hne Htok Hrest.
  destruct (trim_drop_text tok rest Hne Htok) as [tail Htrim].
  destruct (parseTuning_drop (js "Drop " ++ tok ++ rest) n)
    as (tok' & Htok' & ->); [by rewrite Htrim|].
  rewrite words_drop_text in Htok' by done. by injection Htok' as <-.
Qed.

(** C9: in Drop form the note is not checked and the tokens after it are
    ignored: "Drop" followed by any token gives the standard tuning with
    that token, normalised, on the lowest string, whatever follows the
    token; "Drop X" resolves for 4 to 8 strings although "X" is not a
    note, and "Drop D foo bar" resolves as "Drop D" does. *)
Theorem drop_note_unchecked (tok extra : jsstring) (n : nat) :
  tok ≠ [] → Forall (λ c, isWhiteSpace c = false) tok →
  parseTuning (JStr (js "Drop " ++ tok)) n
    = (λ base, <[0%nat := normalizeToken tok]> base)
        <$> standardTunings !! n
  ∧ parseTuning (JStr (js "Drop " ++ tok ++ js " " ++ extra)) n
      = parseTuning (JStr (js "Drop " ++ tok)) n
  ∧ ((4 ≤ n ≤ 8)%nat →
       ∃ base, standardTunings !! n = Some base
         ∧ parseTuning (JStr (js "Drop X")) n
             = Some (<[0%nat := js "X"]> base))
  ∧ parseNoteToSemitone (JStr (js "X")) = None
  ∧ parseTuning (JStr (js "Drop D foo bar")) 6
      = Some (js <$> ["D"; "A"; "D"; "G"; "B"; "E"]%string)
  ∧ parseTuning (JStr (js "Drop D")) 6
      = Some (js <$> ["D"; "A"; "D"; "G"; "B"; "E"]%string).
Proof.
  intros Hne Htok.
  assert (parseTuning (JStr (js "Drop " ++ tok)) n
            = (λ base, <[0%nat := normalizeToken tok]> base)
                <$> standardTunings !! n) as Hplain.
  { rewrite <- (app_nil_r tok) at 1.
    apply parseTuning_drop_text; [done|done|by left]. }
  split; [done|]. split; [|split; [|split; [|split]]].
  - rewrite Hplain. apply parseTuning_drop_text; [done|done|].
    right. by exists 32%N, extra.
  - intros [base Hbase]%standardTunings_is_Some. exists base.
    split; [done|].
    change (js "Drop X") with (js "Drop " ++ js "X" ++ []).
    rewrite parseTuning_drop_text, Hbase; [|done|by_compute|by left].
    by rewrite normalizeToken_ascii.
  - by rewrite parseNote_ascii.
  - by rewrite parseTuning_ascii.
  - by rewrite parseTuning_ascii.
Qed.

End TuningResolver.

(** * Instances at concrete inputs *)

(** A minor on a four-string bass: the hypothesis of [fretboard_cells]
    holds and the fretboard has four rows. *)
Lemma fretboard_cells_witness :
  ∃ d,
    generateScaleDiagram (prims := asciiPrims) 4
      (js <$> ["E"; "A"; "D"; "G"]%string) (JStr (js "A")) (js "natural")
      = Diagram d
    ∧ length (fretboard d) = 4%nat.
Proof.
  destruct (generateScaleDiagram (prims := asciiPrims) 4
              (js <$> ["E"; "A"; "D"; "G"]%string) (JStr (js "A"))
              (js "natural")) as [d|message] eqn:Hcall.
  - exists d. split; [reflexivity|].
    exact (proj1 (fretboard_cells (prims := asciiPrims) _ _ _ _ d Hcall)).
  - vm_compute in Hcall. discriminate Hcall.
Defined.

(** " e♭b ", with the flat sign U+266D: E lowered twice is D. *)
Lemma parseNote_valid_spelling_witness :
  let s := [32; 101; 9837; 98; 32]%N in
  normalizeNote (prims := asciiPrims) (trim s) = 69%N :: js "BB"
  ∧ ([69%N], 4) ∈ letterTable
  ∧ Forall isAccidental (js "BB")
  ∧ parseNoteToSemitone (prims := asciiPrims) (JStr s) = Some 2.
Proof.
  intros s.
  assert (normalizeNote (prims := asciiPrims) (trim s) = 69%N :: js "BB")
    as H1 by reflexivity.
  assert (([69%N], 4) ∈ letterTable) as H2 by by_compute.
  assert (Forall isAccidental (js "BB")) as H3 by by_compute.
  split; [exact H1|]. split; [exact H2|]. split; [exact H3|].
  exact (proj1 (parseNote_valid_spelling (prims := asciiPrims)
                  s 69%N (js "BB") 4 H1 H2 H3)).
Defined.

(** Root C, harmonic minor. *)
Lemma scale_has_seven_pitch_classes_witness :
  0 ≤ 0 < 12
  ∧ validScaleType (js "harmonic")
  ∧ ∃ scaleNotes,
      scaleLookup (js "harmonic") 0 = Some scaleNotes
      ∧ length scaleNotes = 7%nat.
Proof.
  assert (0 ≤ 0 < 12) as H1 by lia.
  assert (validScaleType (js "harmonic")) as H2 by (by right).
  split; [exact H1|]. split; [exact H2|].
  destruct (scale_has_seven_pitch_classes (prims := asciiPrims)
              0 (js "harmonic") H1 H2) as (l & Hl & Hlen & _).
  by exists l.
Defined.


(** "Drop D" on nine strings, the word "Drop" alone, and a list of four
    notes for six strings. *)
Lemma parseTuning_invalid_witness :
  parseTuning (prims := asciiPrims) (JStr (js "Drop D")) 9 = None
  ∧ parseTuning (prims := asciiPrims) (JStr (js "Drop")) 6 = None
  ∧ parseTuning (prims := asciiPrims) (JStr (js "E A D G")) 6 = None.
Proof.
  split; [|split].
  - apply (proj1 (proj2 (proj2 (parseTuning_invalid (prims := asciiPrims) 9)))).
    + apply isDropForm_spec. reflexivity.
    + lia.
  - apply (proj1 (proj2 (proj2 (proj2
             (parseTuning_invalid (prims := asciiPrims) 6))))).
    + vm_compute. lia.
    + lia.
  - apply (proj1 (proj2 (proj2 (proj2 (proj2
             (parseTuning_invalid (prims := asciiPrims) 6)))))).
    + rewrite <- isDropForm_spec. by vm_compute.
    + by vm_compute.
Defined.

(** Six strings with "X" on the highest one, in C harmonic minor. *)
Lemma bad_open_note_aborts_witness :
  let t := js <$> ["E"; "A"; "D"; "G"; "B"; "X"]%string in
  (5 < 6)%nat
  ∧ t !! 5%nat = Some (js "X")
  ∧ parseNoteToSemitone (prims := asciiPrims) (JStr (js "X")) = None
  ∧ (∀ i, (i < 5)%nat →
          is_Some (parseNoteToSemitone (prims := asciiPrims) (arrayGet t i)))
  ∧ generateScaleDiagram (prims := asciiPrims) 6 t (JStr (js "C"))
      (js "harmonic")
      = Error (tuningNotePrefix ++ js "X").
Proof.
  intros t.
  assert (5 < 6)%nat as H1 by lia.
  assert (t !! 5%nat = Some (js "X")) as H2 by reflexivity.
  assert (parseNoteToSemitone (prims := asciiPrims) (JStr (js "X")) = None)
    as H3 by reflexivity.
  assert (∀ i, (i < 5)%nat →
            is_Some (parseNoteToSemitone (prims := asciiPrims)
                       (arrayGet t i))) as H4.
  { intros i Hi. do 5 (destruct i as [|i]; [by eexists|]). lia. }
  split; [exact H1|]. split; [exact H2|]. split; [exact H3|].
  split; [exact H4|].
  apply (proj2 (bad_open_note_aborts (prims := asciiPrims) 6 t
                  (JStr (js "C")) (js "harmonic") 5 (js "X") H1 H2 H3)).
  - exact H4.
  - by eexists.
  - by right.
Defined.

(** "Drop C#" followed by two more words. *)
Lemma drop_note_unchecked_witness :
  js "C#" ≠ []
  ∧ Forall (λ c, isWhiteSpace c = false) (js "C#")
  ∧ parseTuning (prims := asciiPrims)
      (JStr (js "Drop " ++ js "C#" ++ js " " ++ js "foo bar")) 6
      = parseTuning (prims := asciiPrims) (JStr (js "Drop " ++ js "C#")) 6.
Proof.
  assert (js "C#" ≠ []) as H1 by done.
  assert (Forall (λ c, isWhiteSpace c = false) (js "C#")) as H2
    by by_compute.
  split; [exact H1|]. split; [exact H2|].
  exact (proj1 (proj2 (drop_note_unchecked (prims := asciiPrims)
                         (js "C#") (js "foo bar") 6 H1 H2))).
Defined.


(** * Inputs at which the unrestricted statements fail *)

(** An unparseable entry beyond the string count is never read, and an
    invalid root note is reported before any tuning entry is looked at. *)
Lemma bad_open_note_counterexample :
  (∀ prims : StringPrims,
     parseNoteToSemitone (JStr (js "X")) = None
     ∧ (∃ d, generateScaleDiagram 4
               (js <$> ["E"; "A"; "D"; "G"; "X"]%string)
               (JStr (js "C")) (js "natural") = Diagram d
           ∧ length (fretboard d) = 4%nat)
     ∧ generateScaleDiagram 6
         (js <$> ["E"; "A"; "D"; "G"; "B"; "X"]%string)
         (JStr (js "H")) (js "natural") = Error errInvalidKey)
  ∧ errInvalidKey ≠ tuningNotePrefix ++ js "X".
Proof.
  split; [|by vm_compute]. intros prims.
  rewrite !(generate_ascii (prims := prims)),
    (parseNote_ascii (prims := prims)) by by_compute.
  split; [by vm_compute|]. split; [|by vm_compute].
  eexists. split; [reflexivity|by vm_compute].
Qed.


(** * Further properties of the code *)

(** ** The tables *)

(** The letter [k] steps after [c] in the cycle A B C D E F G. *)
Definition letterAfter (c : N) (k : nat) : N :=
  (65 + (c - 65 + N.of_nat k) `mod` 7)%N.

(** The pitch classes at the given distances above [r]. *)
Definition pitchesAbove (r : Z) (steps : list Z) : list (option Z) :=
  (λ o, Some ((r + o) `mod` 12)) <$> steps.

(** Every row of the two scale tables, with its key. *)
Definition scaleRows : list (Z * list jsstring) :=
  map_to_list naturalMinorScales ++ map_to_list harmonicMinorScales.

Lemma scaleLookup_Forall (P : Z * list jsstring → Prop) :
  Forall P scaleRows →
  ∀ st r l, scaleLookup st r = Some l → P (r, l).
Proof.
  intros HP st r l Hl. rewrite Forall_forall in HP. apply HP.
  unfold scaleRows, scaleLookup in *. rewrite elem_of_app.
  repeat case_decide; [left|right|done]; by apply elem_of_map_to_list.
Qed.

Lemma natural_rows_Forall (P : Z * list jsstring → Prop) :
  Forall P (map_to_list naturalMinorScales) →
  ∀ r l, naturalMinorScales !! r = Some l → P (r, l).
Proof.
  intros HP r l Hl. rewrite Forall_forall in HP.
  by apply HP, elem_of_map_to_list.
Qed.

Lemma harmonic_rows_Forall (P : Z * list jsstring → Prop) :
  Forall P (map_to_list harmonicMinorScales) →
  ∀ r l, harmonicMinorScales !! r = Some l → P (r, l).
Proof.
  intros HP r l Hl. rewrite Forall_forall in HP.
  by apply HP, elem_of_map_to_list.
Qed.

Section FurtherTables.
Context {prims : StringPrims}.

(** X1: for every key 0..11 the natural minor row spells the pitch
    classes 0, 2, 3, 5, 7, 8 and 10 semitones above the key, in this
    order. *)
Theorem naturalMinor_intervals (r : Z) :
  0 ≤ r < 12 →
  ∃ l, naturalMinorScales !! r = Some l
     ∧ (λ t, parseNoteToSemitone (JStr t)) <$> l
         = pitchesAbove r [0; 2; 3; 5; 7; 8; 10].
Proof.
  intros Hr. destruct (scale_tables_total r Hr) as [[l Hl] _].
  exists l. split; [done|].
  destruct (naturalMinorScales_row _ _ Hl) as (_ & Hascii & _).
  rewrite parseAll_ascii by done.
  apply (natural_rows_Forall
           (λ p, (λ t, parseNoteToSemitone (prims := asciiPrims) (JStr t))
                   <$> p.2 = pitchesAbove p.1 [0; 2; 3; 5; 7; 8; 10]));
    [by_compute | done].
Qed.

(** X2: for every key 0..11 the harmonic minor row spells the pitch
    classes 0, 2, 3, 5, 7, 8 and 11 semitones above the key; its first
    six names are those of the natural minor row of the key, and its
    seventh name has the letter of the natural row's seventh name. *)
Theorem harmonicMinor_raised_seventh (r : Z) :
  0 ≤ r < 12 →
  ∃ ln lh,
    naturalMinorScales !! r = Some ln
    ∧ harmonicMinorScales !! r = Some lh
    ∧ (λ t, parseNoteToSemitone (JStr t)) <$> lh
        = pitchesAbove r [0; 2; 3; 5; 7; 8; 11]
    ∧ take 6 lh = take 6 ln
    ∧ take 1 <$> last lh = take 1 <$> last ln.
Proof.
  intros Hr. destruct (scale_tables_total r Hr) as [[ln Hn] [lh Hh]].
  exists ln, lh. split; [done|]. split; [done|].
  destruct (harmonicMinorScales_row _ _ Hh) as (_ & Hascii & _).
  rewrite parseAll_ascii by done.
  pose proof (harmonic_rows_Forall
    (λ p, (λ t, parseNoteToSemitone (prims := asciiPrims) (JStr t)) <$> p.2
            = pitchesAbove p.1 [0; 2; 3; 5; 7; 8; 11]
          ∧ Some (take 6 p.2) = take 6 <$> naturalMinorScales !! p.1
          ∧ Some (take 1 <$> last p.2)
              = (λ l, take 1 <$> last l) <$> naturalMinorScales !! p.1)
    ltac:(by_compute) r lh Hh) as (H1 & H2 & H3).
  cbn [fst snd] in *. rewrite Hn in H2, H3. cbn in H2, H3.
  split; [done|]. split; congruence.
Qed.

(** X3: every row of both tables is spelled with seven consecutive
    letters: the names' first letters run through the cycle
    A B C D E F G from the first name's letter, each letter once. *)
Theorem scale_rows_diatonic (r : Z) (st : jsstring) :
  0 ≤ r < 12 → validScaleType st →
  ∃ l c,
    scaleLookup st r = Some l
    ∧ [c] ∈ noteLetters
    ∧ take 1 <$> l = (λ k, [letterAfter c k]) <$> seq 0 7.
Proof.
  intros Hr Hst. destruct (scaleLookup_total st r Hst Hr) as [l Hl].
  pose proof (scaleLookup_Forall
    (λ p, ∃ c, head (concat (take 1 p.2)) = Some c
            ∧ [c] ∈ noteLetters
            ∧ take 1 <$> p.2 = (λ k, [letterAfter c k]) <$> seq 0 7))
    as Hrows.
  destruct (Hrows ltac:(repeat (constructor;
              [by eexists; split; [reflexivity|split; by_compute]|]);
              constructor) st r l Hl) as (c & _ & Hc & Hletters).
  by exists l, c.
Qed.

(** X4: the sharp name of a parsed pitch class parses back to it: when a
    note parses to [r], entry [r] of [noteNamesSharp] exists and parses
    to [r]. *)
Theorem sharp_name_round_trip (note : jsval) (r : Z) :
  parseNoteToSemitone note = Some r →
  ∃ name,
    noteNamesSharp !! Z.to_nat r = Some name
    ∧ parseNoteToSemitone (JStr name) = Some r.
Proof.
  intros Hr%parseNote_range.
  destruct (noteNamesSharp_lookup r Hr) as (name & Hname & Hparse & Hascii).
  exists name. split; [done|]. by rewrite parseNote_ascii.
Qed.

End FurtherTables.

(** ** The note parser: letter case, Unicode signs, appended accidentals *)

Lemma isWhiteSpace_true_range (c : N) :
  isWhiteSpace c = true → (c ≤ 32 ∨ 160 ≤ c)%N.
Proof.
  unfold isWhiteSpace, whiteSpaceChars.
  rewrite bool_decide_eq_true, !elem_of_cons, elem_of_nil. lia.
Qed.

Lemma isWhiteSpace_asciiUpper (c : N) :
  isWhiteSpace (asciiUpper c) = isWhiteSpace c.
Proof.
  unfold asciiUpper.
  destruct (N.leb_spec 97 c), (N.leb_spec c 122); cbn [andb]; try done.
  destruct (isWhiteSpace c) eqn:Hc, (isWhiteSpace (c - 32)) eqn:Hc';
    try done; apply isWhiteSpace_true_range in Hc || apply
      isWhiteSpace_true_range in Hc'; lia.
Qed.

Lemma dropWhile_fmap {A} (p : A → bool) (f : A → A) (l : list A) :
  (∀ x, p (f x) = p x) →
  dropWhile p (f <$> l) = f <$> dropWhile p l.
Proof.
  intros Hf. induction l as [|x l IH]; [done|]. cbn. rewrite Hf.
  by destruct (p x).
Qed.

Lemma trim_fmap (f : N → N) (s : jsstring) :
  (∀ c, isWhiteSpace (f c) = isWhiteSpace c) →
  trim (f <$> s) = f <$> trim s.
Proof.
  intros Hf. unfold trim, trimStart, trimEnd.
  by rewrite dropWhile_fmap, <- fmap_reverse, dropWhile_fmap,
    <- fmap_reverse.
Qed.

Lemma isAscii_asciiUpper (s : jsstring) :
  isAscii s = true → isAscii (asciiUpper <$> s) = true.
Proof.
  rewrite !isAscii_Forall. intros H. apply Forall_fmap.
  eapply Forall_impl; [exact H|]. intros c Hc. cbn in *. unfold asciiUpper.
  destruct (N.leb_spec 97 c), (N.leb_spec c 122); cbn [andb]; lia.
Qed.

Lemma isAscii_app (s t : jsstring) :
  isAscii s = true → isAscii t = true → isAscii (s ++ t) = true.
Proof. rewrite !isAscii_Forall. apply Forall_app_2. Qed.

Lemma asciiUpper_lower (c : N) :
  (97 ≤ c ≤ 122)%N → asciiUpper c = (c - 32)%N.
Proof.
  intros Hc. unfold asciiUpper.
  destruct (N.leb_spec 97 c), (N.leb_spec c 122); cbn [andb]; lia.
Qed.

Lemma asciiUpper_other (c : N) :
  ¬ (97 ≤ c ≤ 122)%N → asciiUpper c = c.
Proof.
  intros Hc. unfold asciiUpper.
  destruct (N.leb_spec 97 c), (N.leb_spec c 122); cbn [andb]; lia.
Qed.

(** Under the ASCII-only engine, upper-casing the input first changes
    nothing of the normalised text. *)
Lemma normalizeNote_asciiUpper (x : jsstring) :
  normalizeNote (prims := asciiPrims) (asciiUpper <$> x)
    = normalizeNote (prims := asciiPrims) x.
Proof.
  unfold normalizeNote, replaceAll. cbn [toUpperCase asciiPrims].
  rewrite <- !list_fmap_compose. apply list_fmap_ext. intros _ c _. cbn.
  change flatSign with 9837%N. change sharpSign with 9839%N.
  destruct (decide (97 ≤ c ≤ 122)%N) as [Hc|Hc].
  - rewrite (asciiUpper_lower c Hc).
    rewrite (proj2 (N.eqb_neq (c - 32) 9837)) by lia.
    rewrite (proj2 (N.eqb_neq (c - 32) 9839)) by lia.
    rewrite (proj2 (N.eqb_neq c 9837)) by lia.
    rewrite (proj2 (N.eqb_neq c 9839)) by lia.
    rewrite (asciiUpper_lower c Hc). apply asciiUpper_other. lia.
  - by rewrite (asciiUpper_other c Hc).
Qed.

Lemma parseNote_asciiUpper_ascii (s : jsstring) :
  parseNoteToSemitone (prims := asciiPrims) (JStr (asciiUpper <$> s))
    = parseNoteToSemitone (prims := asciiPrims) (JStr s).
Proof.
  rewrite !parseNote_unfold, trim_fmap by apply isWhiteSpace_asciiUpper.
  rewrite normalizeNote_asciiUpper. by destruct (trim s).
Qed.

Lemma accidentals_app (r1 r2 : jsstring) (b : Z) :
  accidentals (r1 ++ r2) b = accidentals r1 b ≫= accidentals r2.
Proof.
  revert b. induction r1 as [|c r1 IH]; intros b; cbn [app accidentals].
  - done.
  - repeat case_decide; by rewrite ?IH.
Qed.

(** Appending a code unit that is not white space to a text that does
    not end in white space commutes with trimming. *)
Lemma trim_snoc (s : jsstring) (x c : N) :
  last s = Some x → isWhiteSpace x = false → isWhiteSpace c = false →
  ∃ pre, trim s = pre ++ [x] ∧ trim (s ++ [c]) = (pre ++ [x]) ++ [c].
Proof.
  intros [l' ->]%last_Some Hx Hc. unfold trim, trimStart.
  assert (∃ pre, dropWhile isWhiteSpace (l' ++ [x]) = pre ++ [x])
    as [pre Hpre].
  { rewrite dropWhile_app. destruct (dropWhile isWhiteSpace l') as [|d k].
    - exists []. by rewrite dropWhile_none.
    - by exists (d :: k). }
  exists pre. split.
  - rewrite Hpre. by apply trimEnd_snoc.
  - rewrite (dropWhile_app _ (l' ++ [x]) [c]), Hpre.
    destruct (pre ++ [x]) as [|h y] eqn:Hy; [by destruct pre|].
    rewrite <- Hy. by apply trimEnd_snoc.
Qed.

Lemma parseNote_snoc_ascii (s : jsstring) (x c c' : N) (δ : Z) :
  last s = Some x → isWhiteSpace x = false → isWhiteSpace c = false →
  normalizeNote (prims := asciiPrims) [c] = [c'] →
  (∀ b, accidentals [c'] b = Some (b + δ)) →
  parseNoteToSemitone (prims := asciiPrims) (JStr (s ++ [c]))
    = (λ v, (v + δ) `mod` 12)
        <$> parseNoteToSemitone (prims := asciiPrims) (JStr s).
Proof.
  intros Hlast Hx Hc Hnorm Hacc.
  destruct (trim_snoc s x c Hlast Hx Hc) as (pre & Htrim & Htrim').
  rewrite !parseNote_unfold, Htrim', Htrim.
  assert (normalizeNote (prims := asciiPrims) ((pre ++ [x]) ++ [c])
            = normalizeNote (prims := asciiPrims) (pre ++ [x]) ++ [c'])
    as ->.
  { rewrite <- Hnorm. unfold normalizeNote, replaceAll.
    cbn [toUpperCase asciiPrims]. by rewrite !fmap_app. }
  destruct (pre ++ [x]) as [|h y] eqn:Hy; [by destruct pre|].
  cbn [app].
  destruct (normalizeNote (prims := asciiPrims) (h :: y)) as [|l rest]
    eqn:Hn; [by unfold normalizeNote, replaceAll in Hn|].
  cbn [app]. destruct (baseSemitoneMap !! [l]) as [b|]; [|done]. cbn.
  rewrite accidentals_app.
  destruct (accidentals rest b) as [a|]; [|done].
  cbn [mbind option_bind fmap option_fmap option_map].
  rewrite Hacc. cbn [mbind option_bind]. f_equal.
  by rewrite Z.add_mod_idemp_l.
Qed.

Lemma replaceAll_flat_idem (x : jsstring) :
  replaceAll sharpSign (codeOf "#")
    (replaceAll flatSign (codeOf "b") (replaceAll flatSign (codeOf "b") x))
  = replaceAll sharpSign (codeOf "#") (replaceAll flatSign (codeOf "b") x).
Proof.
  unfold replaceAll. rewrite <- !list_fmap_compose.
  apply list_fmap_ext. intros _ c _. unfold compose.
  destruct (N.eqb_spec c flatSign) as [->|Hc]; [by vm_compute|].
  cbv beta iota. by rewrite (proj2 (N.eqb_neq c flatSign) Hc).
Qed.

Lemma replaceAll_sharp_absorb (x : jsstring) :
  replaceAll sharpSign (codeOf "#")
    (replaceAll flatSign (codeOf "b") (replaceAll sharpSign (codeOf "#") x))
  = replaceAll sharpSign (codeOf "#") (replaceAll flatSign (codeOf "b") x).
Proof.
  unfold replaceAll. rewrite <- !list_fmap_compose.
  apply list_fmap_ext. intros _ c _. unfold compose.
  destruct (N.eqb_spec c sharpSign) as [->|Hc]; [by vm_compute|done].
Qed.

Section FurtherParser.
Context {prims : StringPrims}.

(** X5: on ASCII text the parser ignores letter case: a note and its
    upper-cased spelling parse alike. *)
Theorem parseNote_case_insensitive (s : jsstring) :
  isAscii s = true →
  parseNoteToSemitone (JStr (asciiUpper <$> s))
    = parseNoteToSemitone (JStr s).
Proof.
  intros Hs. rewrite (parseNote_ascii (JStr s)) by done.
  rewrite (parseNote_ascii (JStr (asciiUpper <$> s)))
    by by apply isAscii_asciiUpper.
  apply parseNote_asciiUpper_ascii.
Qed.

(** X6: the Unicode accidentals count as their ASCII spellings: writing
    "b" for every flat sign, or "#" for every sharp sign, of an input
    does not change what it parses to. *)
Theorem parseNote_unicode_accidentals (s : jsstring) :
  parseNoteToSemitone (JStr (replaceAll flatSign (codeOf "b") s))
    = parseNoteToSemitone (JStr s)
  ∧ parseNoteToSemitone (JStr (replaceAll sharpSign (codeOf "#") s))
      = parseNoteToSemitone (JStr s).
Proof.
  assert (∀ c d, isWhiteSpace c = false → isWhiteSpace d = false →
            ∀ y, trim (replaceAll c d y) = replaceAll c d (trim y))
    as Htrim.
  { intros c d Hc Hd y. unfold replaceAll. apply trim_fmap. intros x.
    destruct (N.eqb_spec x c); [congruence|done]. }
  split; rewrite !parseNote_unfold, Htrim by done; unfold normalizeNote.
  - rewrite replaceAll_flat_idem. by destruct (trim s).
  - rewrite replaceAll_sharp_absorb. by destruct (trim s).
Qed.

(** X7: on an ASCII text that does not end in white space, appending "#"
    raises the parsed pitch class by one semitone modulo 12, appending
    "b" lowers it by one, and appending "#b" leaves it as it is; an
    input that does not parse still does not parse. *)
Theorem parseNote_append_accidental (s : jsstring) (x : N) :
  isAscii s = true → last s = Some x → isWhiteSpace x = false →
  parseNoteToSemitone (JStr (s ++ js "#"))
    = (λ v, (v + 1) `mod` 12) <$> parseNoteToSemitone (JStr s)
  ∧ parseNoteToSemitone (JStr (s ++ js "b"))
      = (λ v, (v - 1) `mod` 12) <$> parseNoteToSemitone (JStr s)
  ∧ parseNoteToSemitone (JStr (s ++ js "#b"))
      = parseNoteToSemitone (JStr s).
Proof.
  intros Hs Hlast Hx.
  assert (∀ t y c c' δ, isAscii t = true → (c < 128)%N →
            last t = Some y → isWhiteSpace y = false →
            isWhiteSpace c = false →
            normalizeNote (prims := asciiPrims) [c] = [c'] →
            (∀ b, accidentals [c'] b = Some (b + δ)) →
            parseNoteToSemitone (JStr (t ++ [c]))
              = (λ v, (v + δ) `mod` 12) <$> parseNoteToSemitone (JStr t))
    as Hstep.
  { intros t y c c' δ Ht Hc Hlt Hy Hcws Hn Hacc.
    assert (isAscii (t ++ [c]) = true) as Htc.
    { apply isAscii_app; [done|]. cbn. by rewrite (proj2 (N.ltb_lt _ _) Hc). }
    rewrite (parseNote_ascii (JStr (t ++ [c]))) by done.
    rewrite (parseNote_ascii (JStr t)) by done.
    by eapply parseNote_snoc_ascii. }
  change (js "#") with [35%N]. change (js "b") with [98%N].
  change (js "#b") with ([35%N] ++ [98%N]).
  assert (parseNoteToSemitone (JStr (s ++ [35%N]))
            = (λ v, (v + 1) `mod` 12) <$> parseNoteToSemitone (JStr s))
    as Hsharp.
  { by apply (Hstep s x 35%N 35%N 1). }
  split; [done|]. split.
  { by apply (Hstep s x 98%N 66%N (-1)). }
  rewrite app_assoc.
  rewrite (Hstep (s ++ [35%N]) 35%N 98%N 66%N (-1)), Hsharp;
    [|by apply isAscii_app|done|by rewrite last_snoc|done..].
  destruct (parseNoteToSemitone (JStr s)) as [v|] eqn:Hv; [|done].
  apply parseNote_range in Hv. cbn. f_equal.
  rewrite Zplus_mod_idemp_l.
  replace (v + 1 + -1) with v by lia. by apply Z.mod_small.
Qed.

End FurtherParser.

(** ** The tuning resolver: length, pitch, white space *)

Lemma replaceAll_ascii (c d : N) (x : jsstring) :
  (128 ≤ c)%N → isAscii x = true → replaceAll c d x = x.
Proof.
  rewrite isAscii_Forall. intros Hc Hx. unfold replaceAll.
  rewrite <- (list_fmap_id x) at 2. apply Forall_fmap_ext_1.
  eapply Forall_impl; [exact Hx|]. intros y Hy. cbn in *.
  rewrite (proj2 (N.eqb_neq y c)); [done|lia].
Qed.

Lemma isDropForm_split (t : jsstring) :
  isDropForm t = true →
  ∃ pre rest,
    asciiUpper <$> pre = js "DROP"
    ∧ splitWs t = pre :: splitGo true [] rest.
Proof.
  intros Hdrop. pose proof Hdrop as (pre & w & rest & -> & Hpre & Hw)%isDropForm_spec.
  exists pre, rest. split; [done|].
  change (js "DROP") with [68; 82; 79; 80]%N in Hpre.
  destruct pre as [|d [|r [|o [|p [|]]]]]; try done.
  cbn [app isDropForm] in Hdrop.
  rewrite !andb_true_iff in Hdrop.
  destruct Hdrop as ((((Hd & Hr) & Ho) & Hp) & _).
  apply matchIgnoreCase_not_ws in Hd, Hr, Ho, Hp; [|by_compute..].
  unfold splitWs. cbn [app splitGo]. by rewrite Hd, Hr, Ho, Hp, Hw.
Qed.

Lemma wordsGo_head_split (t cur p : jsstring) (rest : list jsstring) :
  wordsGo cur t = p :: rest → rest ≠ [] →
  (cur ≠ [] ∨ ∃ c t', t = c :: t' ∧ isWhiteSpace c = false) →
  ∃ w t', cur ++ t = p ++ w :: t' ∧ isWhiteSpace w = true.
Proof.
  revert cur. induction t as [|c t IH]; intros cur Hwords Hrest Hhead.
  - cbn in Hwords. destruct cur; naive_solver.
  - cbn [wordsGo] in Hwords. destruct (isWhiteSpace c) eqn:Hc.
    + destruct cur as [|h cur].
      { destruct Hhead as [?|(c0 & t0 & [= <- <-] & Hc0)]; congruence. }
      injection Hwords as <- _. by exists c, t.
    + destruct (IH (cur ++ [c]) Hwords Hrest) as (w & t' & Heq & Hw).
      { left. by destruct cur. }
      exists w, t'. by rewrite <- app_assoc in Heq.
Qed.

(** Whether the trimmed text is in Drop form can be read off the
    tokens: the first token is "drop" in some letter case and a second
    token follows. *)
Lemma isDropForm_words (s : jsstring) :
  isDropForm (trim s) = true ↔
  ∃ p q rest, words s = p :: q :: rest ∧ asciiUpper <$> p = js "DROP".
Proof.
  split.
  - intros Hdrop.
    assert (trim s ≠ []) as Hne by (by intros Ht; rewrite Ht in Hdrop).
    destruct (isDropForm_split _ Hdrop) as (pre & rest & Hpre & Hsplit).
    rewrite splitWs_trim in Hsplit by done.
    pose proof (splitGo_nonempty true [] rest) as Hrest.
    destruct (splitGo true [] rest) as [|q rest']; [done|].
    by exists pre, q, rest'.
  - intros (p & q & rest & Hwords & Hp). rewrite <- words_trim in Hwords.
    apply isDropForm_spec.
    destruct (trim s) as [|c t] eqn:Ht; [done|].
    destruct (wordsGo_head_split (c :: t) [] p (q :: rest) Hwords)
      as (w & t' & Heq & Hw); [done| |].
    { right. exists c, t. split; [done|]. by eapply trim_head. }
    exists p, w, t'. by rewrite <- Heq.
Qed.

Section FurtherTuning.
Context {prims : StringPrims}.

(** Normalising an ASCII tuning token keeps the note it names. *)
Lemma parseNote_normalizeToken (t : jsstring) :
  isAscii t = true →
  parseNoteToSemitone (JStr (normalizeToken t))
    = parseNoteToSemitone (JStr t).
Proof.
  intros Ht. unfold normalizeToken. rewrite toUpperCase_ascii by done.
  pose proof (isAscii_asciiUpper t Ht) as Hupper.
  rewrite (replaceAll_ascii flatSign), (replaceAll_ascii sharpSign);
    [|by vm_compute|done|by vm_compute|done].
  rewrite (parseNote_ascii (JStr t)) by done.
  rewrite (parseNote_ascii (JStr (asciiUpper <$> t)))
    by by apply isAscii_asciiUpper.
  apply parseNote_asciiUpper_ascii.
Qed.

(** X8: a tuning that the resolver returns has exactly [numStrings]
    entries, in Drop form and in explicit form alike. *)
Theorem parseTuning_length (input : jsval) (n : nat)
    (tuning : list jsstring) :
  parseTuning input n = Some tuning → length tuning = n.
Proof.
  destruct input as [|[|c s]]; [done..|].
  destruct (isDropForm (trim (c :: s))) eqn:Hdrop.
  - destruct (parseTuning_drop (c :: s) n Hdrop) as (tok & _ & ->).
    destruct (standardTunings !! n) as [base|] eqn:Hbase; [|done].
    intros [= <-]. rewrite length_insert.
    by apply standardTunings_Some in Hbase as (_ & ? & _).
  - rewrite parseTuning_explicit by done. case_decide; [|done].
    intros [= <-]. by rewrite length_fmap.
Qed.

(** X9: on ASCII input the resolver keeps the notes that were typed: in
    explicit form the entries of the result parse as the tokens of the
    input do, one by one, and in Drop form the lowest string parses as
    the token after "Drop" does. *)
Theorem parseTuning_keeps_pitch (s : jsstring) (n : nat)
    (tuning : list jsstring) :
  isAscii s = true →
  parseTuning (JStr s) n = Some tuning →
  (¬ DropPrefixed (trim s) →
     (λ t, parseNoteToSemitone (JStr t)) <$> tuning
       = (λ t, parseNoteToSemitone (JStr t)) <$> words s)
  ∧ (DropPrefixed (trim s) →
       parseNoteToSemitone (arrayGet tuning 0)
         = parseNoteToSemitone (arrayGet (words s) 1)).
Proof.
  intros Hs Hres.
  assert (Forall (λ t, isAscii t = true) (words s)) as Hwords
    by by apply wordsGo_ascii.
  destruct s as [|c s]; [done|]. split.
  - intros Hdrop. rewrite <- isDropForm_spec in Hdrop.
    rewrite parseTuning_explicit in Hres
      by (by destruct (isDropForm (trim (c :: s)))).
    case_decide; [|done]. injection Hres as <-.
    rewrite <- list_fmap_compose. apply Forall_fmap_ext_1.
    eapply Forall_impl; [exact Hwords|]. intros t Ht.
    by apply parseNote_normalizeToken.
  - intros Hdrop%isDropForm_spec.
    destruct (parseTuning_drop (c :: s) n Hdrop) as (tok & Htok & Heq).
    rewrite Heq in Hres.
    destruct (standardTunings !! n) as [base|] eqn:Hbase; [|done].
    injection Hres as <-.
    apply standardTunings_Some in Hbase as (Hn & Hlen & _).
    unfold arrayGet. rewrite Htok, list_lookup_insert_eq by lia.
    apply parseNote_normalizeToken.
    by apply (Forall_lookup_1 _ _ _ _ Hwords Htok).
Qed.

(** X10: only the tokens of a non-empty input matter to the resolver:
    two inputs with the same white-space-separated tokens resolve alike,
    whatever white space stands before, between and after the tokens. *)
Theorem parseTuning_whitespace_insensitive (s1 s2 : jsstring) (n : nat) :
  s1 ≠ [] → s2 ≠ [] → words s1 = words s2 →
  parseTuning (JStr s1) n = parseTuning (JStr s2) n.
Proof.
  intros H1 H2 Hwords.
  assert (isDropForm (trim s1) = isDropForm (trim s2)) as Hsame.
  { apply eq_true_iff_eq. by rewrite !isDropForm_words, Hwords. }
  destruct (isDropForm (trim s2)) eqn:Hdrop.
  - destruct (parseTuning_drop s1 n Hsame) as (tok1 & Htok1 & ->).
    destruct (parseTuning_drop s2 n Hdrop) as (tok2 & Htok2 & ->).
    rewrite Hwords in Htok1. by assert (tok1 = tok2) as -> by congruence.
  - rewrite !parseTuning_explicit by done. by rewrite Hwords.
Qed.

End FurtherTuning.

(** ** The generator: outcomes, respelling, rows *)

(** What holds of the row computed for an open pitch class [o] from the
    pitch classes [sc] of a scale on the key [r]: every sharp name once,
    ASCII names, seven cells in the scale, the cells classed as root in
    the scale, and one root cell. *)
Definition rowFacts (r : Z) (row : list (jsval * bool)) : Prop :=
  row.*1 ≡ₚ JStr <$> noteNamesSharp
  ∧ Forall (λ cell, isAscii (toStr cell.1) = true) row
  ∧ length (filter (λ cell, cell.2 = true) row) = 7%nat
  ∧ Forall (λ cell,
       App.circleClass (prims := asciiPrims) r cell = js "note-root" →
       cell.2 = true) row
  ∧ length (filter (λ cell,
       App.circleClass (prims := asciiPrims) r cell = js "note-root") row)
    = 1%nat.

#[global] Instance rowFacts_dec r row : Decision (rowFacts r row).
Proof. unfold rowFacts. apply _. Defined.

Lemma fretLoop_rowFacts (st : jsstring) (r : Z) (l : list jsstring)
    (o : Z) :
  scaleLookup st r = Some l → 0 ≤ o < 12 →
  rowFacts r
    (fretLoop
       ((λ t, parseNoteToSemitone (prims := asciiPrims) (JStr t)) <$> l)
       o 12).
Proof.
  intros Hl Ho%pitch_class_cases.
  pose proof (scaleLookup_Forall
    (λ p, Forall (λ o, rowFacts p.1
       (fretLoop
          ((λ t, parseNoteToSemitone (prims := asciiPrims) (JStr t))
             <$> p.2) o 12)) [0; 1; 2; 3; 4; 5; 6; 7; 8; 9; 10; 11])
    ltac:(by apply (bool_decide_unpack _); vm_compute) st r l Hl)
    as Hrows.
  rewrite Forall_forall in Hrows. by apply Hrows.
Qed.

Lemma filter_ext_elem {A} (P1 P2 : A → Prop)
    `{!∀ x, Decision (P1 x), !∀ x, Decision (P2 x)} (l : list A) :
  (∀ x, x ∈ l → (P1 x ↔ P2 x)) → filter P1 l = filter P2 l.
Proof.
  induction l as [|a l IH]; intros Hiff; [done|].
  assert (filter P1 l = filter P2 l) as Htl.
  { apply IH. intros x Hx. apply Hiff. by right. }
  destruct (decide (P1 a)) as [Ha|Ha].
  - rewrite !filter_cons_True; [by rewrite Htl|by apply Hiff; [left|]|done].
  - rewrite !filter_cons_False; [done| |done].
    intros Ha'. apply Ha. by apply Hiff; [left|].
Qed.

Section FurtherGenerator.
Context {prims : StringPrims}.

Lemma stringLoop_inl_inv (t : list jsstring) sc (todo s : nat) acc
    (message : jsstring) :
  stringLoop t sc todo s acc = inl message →
  ∃ k, (k < todo)%nat
    ∧ parseNoteToSemitone (arrayGet t (s + k)) = None
    ∧ (∀ j, (j < k)%nat →
            is_Some (parseNoteToSemitone (arrayGet t (s + j))))
    ∧ message = errInvalidTuningNote (arrayGet t (s + k)).
Proof.
  revert s acc. induction todo as [|todo IH]; intros s acc; [done|].
  cbn [stringLoop].
  destruct (parseNoteToSemitone (arrayGet t s)) as [o|] eqn:Ho.
  - intros (k & Hk & Hno & Hbefore & ->)%IH. exists (S k).
    replace (s + S k)%nat with (S s + k)%nat by lia.
    split; [lia|]. split; [done|]. split; [|done].
    intros [|j] Hj; [rewrite Nat.add_0_r; by eexists|].
    replace (s + S j)%nat with (S s + j)%nat by lia. apply Hbefore. lia.
  - intros [= <-]. exists 0%nat. rewrite Nat.add_0_r.
    split; [lia|]. split; [done|]. split; [|done]. lia.
Qed.

Lemma stringLoop_pitch_ext (t t' : list jsstring) sc (todo s : nat) acc :
  (∀ i, (s ≤ i < s + todo)%nat →
        is_Some (parseNoteToSemitone (arrayGet t i))
        ∧ parseNoteToSemitone (arrayGet t i)
            = parseNoteToSemitone (arrayGet t' i)) →
  stringLoop t sc todo s acc = stringLoop t' sc todo s acc.
Proof.
  revert s acc. induction todo as [|todo IH]; intros s acc H; [done|].
  cbn [stringLoop]. destruct (H s ltac:(lia)) as [[o Ho] Heq].
  rewrite <- Heq, Ho. apply IH. intros i Hi. apply H. lia.
Qed.

(** The rows of a returned diagram, each computed from the parsed open
    note of its string and the scale's row of the table. *)
Lemma diagram_row (n : nat) (t : list jsstring) (root : jsval)
    (st : jsstring) (d : diagram) (s : nat) (row : list (jsval * bool)) :
  generateScaleDiagram n t root st = Diagram d →
  fretboard d !! s = Some row →
  ∃ o,
    scaleLookup st (rootSemitone d) = Some (scale d)
    ∧ parseNoteToSemitone (arrayGet t s) = Some o
    ∧ 0 ≤ o < 12
    ∧ row = fretLoop
              ((λ x, parseNoteToSemitone (prims := asciiPrims) (JStr x))
                 <$> scale d) o 12.
Proof.
  intros (Hroot & Hst & Hlk & Hsc & Hloop)%generate_Diagram_inv Hrow.
  apply stringLoop_inr in Hloop as (rows & Hfb & Hlen & Hrows).
  cbn [app] in Hfb. subst rows.
  destruct (Hrows s) as (o & Ho & Hrow').
  { rewrite <- Hlen. by eapply lookup_lt_Some. }
  cbn [Nat.add] in Ho. exists o. split; [done|]. split; [done|].
  split; [by eapply parseNote_range|].
  destruct (scaleLookup_row _ _ _ Hlk) as (_ & Hascii & _).
  rewrite <- parseAll_ascii, <- Hsc by done. congruence.
Qed.

(** X11: the generator returns a diagram exactly when the root note
    parses, the scale type is one of the two selectors, and the open
    notes of the first [numStrings] entries of the tuning all parse. *)
Theorem generate_success_iff (n : nat) (t : list jsstring) (root : jsval)
    (st : jsstring) :
  (∃ d, generateScaleDiagram n t root st = Diagram d) ↔
  is_Some (parseNoteToSemitone root)
  ∧ validScaleType st
  ∧ ∀ i, (i < n)%nat → is_Some (parseNoteToSemitone (arrayGet t i)).
Proof.
  split.
  - intros [d (Hroot & Hst & _ & _ & Hloop)%generate_Diagram_inv].
    split; [by eexists|]. split; [done|].
    apply stringLoop_inr in Hloop as (rows & _ & _ & Hrows).
    intros i Hi. destruct (Hrows i Hi) as (o & Ho & _). by eexists.
  - intros (Hroot & Hst & Ht).
    destruct (generate_succeeds n t root st Hroot Hst Ht) as (d & Hd & _).
    by exists d.
Qed.

(** X12: an error of the generator is the key message when the root
    note does not parse; else the scale-type message when the selector
    is unknown; else the tuning-note message for the first string whose
    open note does not parse.  The message is never empty, and never the
    "scale not found" message. *)
Theorem generate_error_cases (n : nat) (t : list jsstring) (root : jsval)
    (st : jsstring) (message : jsstring) :
  generateScaleDiagram n t root st = Error message →
  ((message = errInvalidKey ∧ parseNoteToSemitone root = None)
   ∨ (message = errInvalidScaleType
      ∧ is_Some (parseNoteToSemitone root) ∧ ¬ validScaleType st)
   ∨ (∃ i, (i < n)%nat
         ∧ parseNoteToSemitone (arrayGet t i) = None
         ∧ (∀ j, (j < i)%nat →
                 is_Some (parseNoteToSemitone (arrayGet t j)))
         ∧ message = tuningNotePrefix ++ toStr (arrayGet t i)
         ∧ is_Some (parseNoteToSemitone root) ∧ validScaleType st))
  ∧ message ≠ errScaleNotFound
  ∧ message ≠ [].
Proof.
  rewrite generate_unfold.
  destruct (parseNoteToSemitone root) as [r|] eqn:Hroot.
  2: { intros [= <-]. split; [by left|]. by vm_compute. }
  case_decide as Hst.
  2: { intros [= <-]. split; [right; left; eauto|]. by vm_compute. }
  destruct (scaleLookup_total st r Hst (parseNote_range _ _ Hroot))
    as [l ->]. cbv zeta.
  destruct (stringLoop _ _ _ _ _) as [m|fb] eqn:Hloop; [|done].
  intros [= <-].
  apply stringLoop_inl_inv in Hloop as (k & Hk & Hno & Hbefore & ->).
  cbn [Nat.add] in *. split.
  - right; right. exists k. eauto 10.
  - unfold errInvalidTuningNote.
    split; intros H; apply (f_equal head) in H; by vm_compute in H.
Qed.

(** X13: the generator sees the root note and the open notes only
    through their pitch classes: respelling the root and the strings
    read, each by a name of the same pitch class, gives the same
    result. *)
Theorem generate_enharmonic (n : nat) (t t' : list jsstring)
    (root root' : jsval) (st : jsstring) :
  parseNoteToSemitone root = parseNoteToSemitone root' →
  (∀ i, (i < n)%nat →
        is_Some (parseNoteToSemitone (arrayGet t i))
        ∧ parseNoteToSemitone (arrayGet t i)
            = parseNoteToSemitone (arrayGet t' i)) →
  generateScaleDiagram n t root st = generateScaleDiagram n t' root' st.
Proof.
  intros Hroot Ht. rewrite !generate_unfold, <- Hroot.
  destruct (parseNoteToSemitone root) as [r|]; [|done].
  case_decide; [|done]. destruct (scaleLookup st r) as [l|]; [|done].
  cbv zeta. rewrite (stringLoop_pitch_ext t t'); [done|].
  intros i Hi. apply Ht. lia.
Qed.

(** X14: in a returned diagram every row shows each of the twelve sharp
    names exactly once, and exactly seven of its cells are flagged as in
    the scale. *)
Theorem fretboard_rows_cover_octave (n : nat) (t : list jsstring)
    (root : jsval) (st : jsstring) (d : diagram) (s : nat)
    (row : list (jsval * bool)) :
  generateScaleDiagram n t root st = Diagram d →
  fretboard d !! s = Some row →
  row.*1 ≡ₚ JStr <$> noteNamesSharp
  ∧ length (filter (λ cell, cell.2 = true) row) = 7%nat.
Proof.
  intros Hd Hrow.
  destruct (diagram_row n t root st d s row Hd Hrow)
    as (o & Hlk & _ & Ho & ->).
  by destruct (fretLoop_rowFacts st _ _ o Hlk Ho) as (? & _ & ? & _).
Qed.

(** X15: the name shown in a cell parses back to the cell's pitch
    class: at fret [f] of a string whose open note parses to [o], to
    ([o] + [f]) mod 12; at fret 12, to [o] itself. *)
Theorem fretboard_names_parse_back (n : nat) (t : list jsstring)
    (root : jsval) (st : jsstring) (d : diagram) (s : nat)
    (row : list (jsval * bool)) :
  generateScaleDiagram n t root st = Diagram d →
  fretboard d !! s = Some row →
  ∃ o,
    parseNoteToSemitone (arrayGet t s) = Some o
    ∧ (∀ fret : nat, (1 ≤ fret ≤ 12)%nat →
         ∃ name inScale,
           row !! (fret - 1)%nat = Some (JStr name, inScale)
           ∧ parseNoteToSemitone (JStr name)
               = Some ((o + Z.of_nat fret) `mod` 12))
    ∧ (∃ name inScale,
         row !! 11%nat = Some (JStr name, inScale)
         ∧ parseNoteToSemitone (JStr name) = Some o).
Proof.
  intros Hd Hrow.
  destruct (diagram_row n t root st d s row Hd Hrow)
    as (o & _ & Ho & Hrange & ->).
  exists o. split; [done|].
  assert (∀ fret : nat, (1 ≤ fret ≤ 12)%nat →
            ∃ name inScale,
              fretLoop
                ((λ x, parseNoteToSemitone (prims := asciiPrims) (JStr x))
                   <$> scale d) o 12 !! (fret - 1)%nat
                = Some (JStr name, inScale)
              ∧ parseNoteToSemitone (JStr name)
                  = Some ((o + Z.of_nat fret) `mod` 12)) as Hcells.
  { intros fret Hfret.
    destruct (fretCell_spec
                ((λ x, parseNoteToSemitone (prims := asciiPrims) (JStr x))
                   <$> scale d) o (Z.of_nat fret))
      as (name & Hname & Hcell); [done|lia|].
    destruct (noteNamesSharp_lookup ((o + Z.of_nat fret) `mod` 12))
      as (name' & Hname' & Hparse & Hascii).
    { apply Z.mod_pos_bound. lia. }
    assert (name' = name) as -> by congruence.
    eexists name, _. split.
    - rewrite fretLoop_map, list_lookup_fmap, lookup_seqZ_lt by lia. cbn.
      rewrite <- Hcell. do 2 f_equal. lia.
    - by rewrite parseNote_ascii. }
  split; [done|].
  destruct (Hcells 12%nat ltac:(lia)) as (name & inScale & Hcell & Hparse).
  exists name, inScale. split; [done|]. rewrite Hparse. f_equal.
  rewrite <- Z.add_mod_idemp_r, Z.mod_same, Z.add_0_r by lia.
  by apply Z.mod_small.
Qed.

(** X16: in the rendered table of a returned diagram, a cell gets the
    root class only if it is flagged as in the scale, and every row has
    exactly one cell of the root class. *)
Theorem root_cells (n : nat) (t : list jsstring) (root : jsval)
    (st : jsstring) (d : diagram) (s : nat) (row : list (jsval * bool)) :
  generateScaleDiagram n t root st = Diagram d →
  fretboard d !! s = Some row →
  (∀ cell, cell ∈ row →
     App.circleClass (rootSemitone d) cell = js "note-root" →
     cell.2 = true)
  ∧ length (filter (λ cell,
       App.circleClass (rootSemitone d) cell = js "note-root") row)
    = 1%nat.
Proof.
  intros Hd Hrow.
  destruct (diagram_row n t root st d s row Hd Hrow)
    as (o & Hlk & _ & Ho & ->).
  destruct (fretLoop_rowFacts st _ _ o Hlk Ho)
    as (_ & Hascii & _ & Hin & Hone).
  set (row := fretLoop _ o 12) in *.
  assert (∀ cell, cell ∈ row →
            App.circleClass (rootSemitone d) cell
              = App.circleClass (prims := asciiPrims) (rootSemitone d) cell)
    as Hclass.
  { intros [name inScale] Hcell. unfold App.circleClass.
    rewrite parseNote_ascii; [done|].
    rewrite Forall_forall in Hascii. by apply (Hascii _ Hcell). }
  split.
  - intros cell Hcell. rewrite Hclass by done.
    rewrite Forall_forall in Hin. by apply Hin.
  - rewrite <- Hone. f_equal. apply filter_ext_elem.
    intros cell Hcell. by rewrite Hclass.
Qed.

End FurtherGenerator.

(** ** The application: generating from the form *)

(** What the select-driven form keeps true of its state: a tuning of
    four to eight sharp-spelled names, a sharp-spelled key, a known
    scale type, and as many tuning entries as strings whenever the
    string count has a standard tuning. *)
Definition formInvariant (st : App.state) : Prop :=
  (4 ≤ length (App.tuningNotes st) ≤ 8)%nat
  ∧ Forall (λ x, x ∈ noteNamesSharp) (App.tuningNotes st)
  ∧ App.rootNote st ∈ noteNamesSharp
  ∧ validScaleType (App.scaleType st)
  ∧ ((4 ≤ App.numStrings st ≤ 8)%nat →
     length (App.tuningNotes st) = App.numStrings st).

Lemma standardTunings_sharp_names (n : nat) (base : list jsstring) :
  standardTunings !! n = Some base →
  Forall (λ x, x ∈ noteNamesSharp) base.
Proof.
  intros H. apply (elem_of_list_to_map_2 (M := gmap nat)) in H.
  change (Forall (λ x, x ∈ noteNamesSharp) (n, base).2).
  revert H. generalize (n, base). apply Forall_forall.
  by apply (bool_decide_unpack _); vm_compute.
Qed.

Section FurtherApp.
Context {prims : StringPrims}.

Lemma sharp_names_parse (name : jsstring) :
  name ∈ noteNamesSharp → is_Some (parseNoteToSemitone (JStr name)).
Proof.
  intros Hname.
  assert (isAscii name = true
          ∧ is_Some (parseNoteToSemitone (prims := asciiPrims) (JStr name)))
    as [Hascii Hparse].
  { revert name Hname. apply Forall_forall.
    by apply (bool_decide_unpack _); vm_compute. }
  by rewrite parseNote_ascii.
Qed.

Lemma checkTuning_None (notes : list jsstring) :
  App.checkTuning notes = None ↔
  Forall (λ x, is_Some (parseNoteToSemitone (JStr x))) notes.
Proof.
  induction notes as [|note notes IH]; cbn [App.checkTuning].
  - split; [by constructor | done].
  - rewrite Forall_cons.
    destruct (parseNoteToSemitone (JStr note)) as [o|] eqn:Ho.
    + rewrite IH. split; [by split; [eexists|] | by intros [_ ?]].
    + split; [done|]. by intros [[? ?] _].
Qed.

Lemma checkTuning_first (notes : list jsstring) (i : nat)
    (note : jsstring) :
  notes !! i = Some note →
  parseNoteToSemitone (JStr note) = None →
  (∀ j x, (j < i)%nat → notes !! j = Some x →
          is_Some (parseNoteToSemitone (JStr x))) →
  App.checkTuning notes = Some (tuningNotePrefix ++ note).
Proof.
  revert i. induction notes as [|y notes IH]; intros i Hi Hbad Hbefore;
    [done|]. cbn [App.checkTuning].
  destruct i as [|i].
  - injection Hi as ->. by rewrite Hbad.
  - destruct (Hbefore 0%nat y ltac:(lia) eq_refl) as [o ->].
    apply (IH i); [done|done|].
    intros j x Hj Hx. apply (Hbefore (S j) x); [lia|done].
Qed.

Lemma checkTuning_Some_nonempty (notes : list jsstring)
    (message : jsstring) :
  App.checkTuning notes = Some message → message ≠ [].
Proof.
  induction notes as [|y notes IH]; cbn [App.checkTuning]; [done|].
  destruct (parseNoteToSemitone (JStr y)); [done|].
  intros [= <-] Hnil. apply (f_equal head) in Hnil. by vm_compute in Hnil.
Qed.

Lemma generate_error_nonempty (n : nat) (t : list jsstring) (root : jsval)
    (st : jsstring) (message : jsstring) :
  generateScaleDiagram n t root st = Error message → message ≠ [].
Proof.
  rewrite generate_unfold.
  destruct (parseNoteToSemitone root) as [r|]; [|by intros [= <-]].
  case_decide; [|by intros [= <-]].
  destruct (scaleLookup st r); [|by intros [= <-]]. cbv zeta.
  destruct (stringLoop _ _ _ _ _) as [m|fb] eqn:Hloop; [|done].
  intros [= <-].
  apply stringLoop_inl_inv in Hloop as (k & _ & _ & _ & ->).
  intros Hnil. apply (f_equal head) in Hnil. by vm_compute in Hnil.
Qed.

Lemma handleGenerate_checked (st : App.state) :
  App.checkTuning (App.tuningNotes st) = None →
  App.handleGenerate st =
    match generateScaleDiagram (App.numStrings st) (App.tuningNotes st)
            (JStr (App.rootNote st)) (App.scaleType st) with
    | Diagram d => App.setOutcome None (Some (Diagram d)) st
    | Error message => App.setOutcome (Some message) None st
    end.
Proof.
  intros Hcheck. unfold App.handleGenerate. rewrite Hcheck. cbv zeta.
  destruct (generateScaleDiagram _ _ _ _) as [d|message] eqn:Hgen; [done|].
  apply generate_error_nonempty in Hgen. by destruct message.
Qed.

(** X17: after [handleGenerate] either the error cell is empty and the
    result cell holds a diagram, or the error cell holds a non-empty
    message and the result cell is empty; the four input cells are left
    as they were. *)
Theorem handleGenerate_outcome (st : App.state) :
  ((App.error (App.handleGenerate st) = None
    ∧ ∃ d, App.result (App.handleGenerate st) = Some (Diagram d))
   ∨ (∃ message,
        message ≠ []
        ∧ App.error (App.handleGenerate st) = Some message
        ∧ App.result (App.handleGenerate st) = None))
  ∧ App.numStrings (App.handleGenerate st) = App.numStrings st
  ∧ App.tuningNotes (App.handleGenerate st) = App.tuningNotes st
  ∧ App.rootNote (App.handleGenerate st) = App.rootNote st
  ∧ App.scaleType (App.handleGenerate st) = App.scaleType st.
Proof.
  destruct (App.checkTuning (App.tuningNotes st)) as [m|] eqn:Hcheck.
  - unfold App.handleGenerate. rewrite Hcheck. cbn.
    split; [|done]. right. exists m.
    split; [by eapply checkTuning_Some_nonempty|done].
  - rewrite handleGenerate_checked by done.
    destruct (generateScaleDiagram _ _ _ _) as [d|m] eqn:Hgen; cbn.
    + split; [|done]. left. split; [done|by exists d].
    + split; [|done]. right. exists m.
      split; [by eapply generate_error_nonempty|done].
Qed.

(** X18: [handleGenerate] ends without error exactly when every entry
    of the tuning parses (also those beyond the string count), the key
    parses, the scale type is known, and the tuning has at least
    [numStrings] entries; the result cell then holds the generator's
    diagram, of [numStrings] rows. *)
Theorem handleGenerate_success_iff (st : App.state) :
  (App.error (App.handleGenerate st) = None ↔
     Forall (λ x, is_Some (parseNoteToSemitone (JStr x)))
       (App.tuningNotes st)
     ∧ is_Some (parseNoteToSemitone (JStr (App.rootNote st)))
     ∧ validScaleType (App.scaleType st)
     ∧ (App.numStrings st ≤ length (App.tuningNotes st))%nat)
  ∧ (App.error (App.handleGenerate st) = None →
     ∃ d, App.result (App.handleGenerate st) = Some (Diagram d)
        ∧ generateScaleDiagram (App.numStrings st) (App.tuningNotes st)
            (JStr (App.rootNote st)) (App.scaleType st) = Diagram d
        ∧ length (fretboard d) = App.numStrings st).
Proof.
  destruct (App.checkTuning (App.tuningNotes st)) as [m|] eqn:Hcheck.
  { assert (App.error (App.handleGenerate st) = Some m) as Herr
      by (unfold App.handleGenerate; by rewrite Hcheck).
    rewrite Herr. split; [|done]. split; [done|].
    intros [Hall _]. apply checkTuning_None in Hall. congruence. }
  pose proof (proj1 (checkTuning_None _) Hcheck) as Hall.
  rewrite handleGenerate_checked by done.
  destruct (generateScaleDiagram _ _ _ _) as [d|m] eqn:Hgen; cbn.
  - pose proof Hgen as (Hroot & Hst & _ & _ & Hloop)%generate_Diagram_inv.
    apply stringLoop_inr in Hloop as (rows & Hfb & Hlen & Hrows).
    cbn [app] in Hfb. subst rows. split.
    + split; [|done]. intros _. split; [done|]. split; [by eexists|].
      split; [done|].
      destruct (decide (App.numStrings st ≤ length (App.tuningNotes st))%nat)
        as [|Hshort]; [done|].
      destruct (Hrows (length (App.tuningNotes st)) ltac:(lia))
        as (o & Ho & _).
      cbn [Nat.add] in Ho. by rewrite arrayGet_ge in Ho.
    + intros _. by exists d.
  - split; [|done]. split; [done|].
    intros (_ & Hroot & Hst & Hlen).
    destruct (generate_succeeds (App.numStrings st) (App.tuningNotes st)
                (JStr (App.rootNote st)) (App.scaleType st) Hroot Hst)
      as (d & Hd & _); [|congruence].
    intros i Hi.
    destruct (lookup_lt_is_Some_2 (App.tuningNotes st) i ltac:(lia))
      as [x Hx].
    rewrite (arrayGet_lookup _ _ _ Hx).
    by apply (Forall_lookup_1 _ _ _ _ Hall Hx).
Qed.

(** X19: [handleGenerate] reports the first tuning entry that does not
    parse, wherever it stands in the tuning and whatever the key, the
    scale type and the string count are: the error cell gets the
    tuning-note message with that entry's text, the result cell is
    emptied. *)
Theorem handleGenerate_reports_tuning_first (st : App.state) (i : nat)
    (note : jsstring) :
  App.tuningNotes st !! i = Some note →
  parseNoteToSemitone (JStr note) = None →
  (∀ j x, (j < i)%nat → App.tuningNotes st !! j = Some x →
          is_Some (parseNoteToSemitone (JStr x))) →
  App.error (App.handleGenerate st) = Some (tuningNotePrefix ++ note)
  ∧ App.result (App.handleGenerate st) = None.
Proof.
  intros Hi Hbad Hbefore. unfold App.handleGenerate.
  by rewrite (checkTuning_first _ i note).
Qed.

Lemma formInvariant_step (st st' : App.state) (e : App.event) :
  formInvariant st → App.step st e = Some st' → formInvariant st'.
Proof.
  intros (Hlen & Hnames & Hroot & Hst & Hcount) Hstep.
  destruct e as [n|index value|value|value|]; cbn [App.step] in Hstep.
  - case_decide; [by injection Hstep as <-|]. injection Hstep as <-.
    unfold App.tuningEffect. cbn [App.numStrings App.setNumStrings].
    destruct (standardTunings !! n) as [base|] eqn:Hbase.
    + pose proof (standardTunings_Some _ _ Hbase) as (Hn & Hbl & _).
      pose proof (standardTunings_sharp_names _ _ Hbase).
      unfold formInvariant. cbn. repeat split; try done; lia.
    + unfold formInvariant. cbn. repeat split; try done; try lia.
      intros Hn%standardTunings_is_Some. rewrite Hbase in Hn.
      by destruct Hn.
  - case_decide as Hok; [|done]. destruct Hok as [Hvalue Hindex].
    unfold App.handleTuningChange in Hstep.
    rewrite decide_True in Hstep by done. injection Hstep as <-.
    unfold formInvariant. cbn. rewrite length_insert.
    repeat split; try done; try lia. by apply Forall_insert.
  - case_decide; [|done]. injection Hstep as <-. by unfold formInvariant.
  - case_decide as Hv; [|done]. injection Hstep as <-.
    unfold formInvariant. cbn. repeat split; try done; try lia.
    unfold validScaleType.
    rewrite !elem_of_cons, elem_of_nil in Hv. tauto.
  - injection Hstep as <-.
    destruct (handleGenerate_outcome st) as (_ & H1 & H2 & H3 & H4).
    unfold formInvariant. by rewrite H1, H2, H3, H4.
Qed.

Lemma formInvariant_reachable (st : App.state) :
  App.reachable st → formInvariant st.
Proof.
  induction 1 as [|st e st' _ IH Hstep].
  - split; [vm_compute; lia|].
    split; [by apply (bool_decide_unpack _); vm_compute|].
    split; [by apply (bool_decide_unpack _); vm_compute|].
    split; [by right|]. intros _. by vm_compute.
  - by eapply formInvariant_step.
Qed.

(** X20: in every state the form can reach, [handleGenerate] with at
    most eight strings yields a diagram of [numStrings] rows and no
    error; with more than eight strings the tuning keeps at most eight
    entries, so the generator reads [undefined] past its end and the
    error cell gets the tuning-note message for [undefined]. *)
Theorem reachable_generate (st : App.state) :
  App.reachable st →
  ((App.numStrings st ≤ 8)%nat →
     ∃ d, App.result (App.handleGenerate st) = Some (Diagram d)
        ∧ App.error (App.handleGenerate st) = None
        ∧ length (fretboard d) = App.numStrings st)
  ∧ ((8 < App.numStrings st)%nat →
     App.error (App.handleGenerate st)
       = Some (tuningNotePrefix ++ js "undefined")
     ∧ App.result (App.handleGenerate st) = None).
Proof.
  intros (Hlen & Hnames & Hroot & Hst & Hcount)%formInvariant_reachable.
  assert (Forall (λ x, is_Some (parseNoteToSemitone (JStr x)))
            (App.tuningNotes st)) as Hall.
  { eapply Forall_impl; [exact Hnames|]. intros x. apply sharp_names_parse. }
  assert (∀ i, (i < length (App.tuningNotes st))%nat →
            is_Some (parseNoteToSemitone (arrayGet (App.tuningNotes st) i)))
    as Hget.
  { intros i Hi.
    destruct (lookup_lt_is_Some_2 (App.tuningNotes st) i Hi) as [x Hx].
    rewrite (arrayGet_lookup _ _ _ Hx).
    by apply (Forall_lookup_1 _ _ _ _ Hall Hx). }
  pose proof (proj2 (checkTuning_None _) Hall) as Hcheck.
  pose proof (sharp_names_parse _ Hroot) as Hkey.
  rewrite handleGenerate_checked by done. split.
  - intros Hn.
    destruct (generate_succeeds (App.numStrings st) (App.tuningNotes st)
                (JStr (App.rootNote st)) (App.scaleType st) Hkey Hst)
      as (d & -> & Hrows).
    { intros i Hi. apply Hget.
      destruct (decide (4 ≤ App.numStrings st)%nat); [|lia].
      rewrite Hcount; lia. }
    by exists d.
  - intros Hn.
    destruct (generate_reaches_loop (App.numStrings st) (App.tuningNotes st)
                (JStr (App.rootNote st)) (App.scaleType st) Hkey Hst)
      as (r & l & _ & _ & ->). cbv zeta.
    rewrite (stringLoop_inl _ _ _ _ _ (length (App.tuningNotes st)));
      [|lia|exact Hget|by rewrite arrayGet_ge].
    by rewrite arrayGet_ge.
Qed.

End FurtherApp.

(** ** The application: what the table shows *)

Section FurtherRender.
Context {prims : StringPrims}.

Lemma fretLoop_octave_cell (sc : list (option Z)) (o : Z) :
  0 ≤ o < 12 →
  ∃ name inScale,
    fretLoop sc o 12 !! 11%nat = Some (JStr name, inScale)
    ∧ parseNoteToSemitone (JStr name) = Some o.
Proof.
  intros Ho.
  destruct (fretCell_spec sc o 12) as (name & Hname & Hcell); [done|lia|].
  destruct (noteNamesSharp_lookup ((o + 12) `mod` 12))
    as (name' & Hname' & Hparse & Hascii).
  { apply Z.mod_pos_bound. lia. }
  assert (name' = name) as -> by congruence.
  eexists name, _. split.
  - rewrite fretLoop_map, list_lookup_fmap, lookup_seqZ_lt by lia. cbn.
    by rewrite <- Hcell.
  - rewrite parseNote_ascii, Hparse by done. f_equal.
    rewrite <- Z.add_mod_idemp_r, Z.mod_same, Z.add_0_r by lia.
    by apply Z.mod_small.
Qed.

(** X21: right after [handleGenerate] has stored a diagram, the label of
    every row of the table, which is read from the tuning cell at the
    row's index, names the pitch class that the row shows at fret 12. *)
Theorem generated_rows_match_labels (st : App.state) (d : diagram)
    (s : nat) (row : list (jsval * bool)) :
  App.result (App.handleGenerate st) = Some (Diagram d) →
  fretboard d !! s = Some row →
  ∃ label o name inScale,
    App.tuningNotes (App.handleGenerate st) !! s = Some label
    ∧ parseNoteToSemitone (JStr label) = Some o
    ∧ row !! 11%nat = Some (JStr name, inScale)
    ∧ parseNoteToSemitone (JStr name) = Some o.
Proof.
  destruct (App.checkTuning (App.tuningNotes st)) as [m|] eqn:Hcheck.
  { unfold App.handleGenerate. by rewrite Hcheck. }
  rewrite handleGenerate_checked by done.
  destruct (generateScaleDiagram _ _ _ _) as [d'|m] eqn:Hgen; [|done].
  cbn. intros [= ->] Hrow.
  destruct (diagram_row _ _ _ _ d s row Hgen Hrow)
    as (o & _ & Ho & Hrange & ->).
  unfold arrayGet in Ho.
  destruct (App.tuningNotes st !! s) as [label|] eqn:Hlabel; [|done].
  destruct (fretLoop_octave_cell
              ((λ x, parseNoteToSemitone (prims := asciiPrims) (JStr x))
                 <$> scale d) o Hrange) as (name & inScale & Hcell & Hname).
  by exists label, o, name, inScale.
Qed.


End FurtherRender.

(** ** Instances of the further properties *)

Lemma diagram_with_row {prims : StringPrims} (n : nat) (t : list jsstring)
    (root : jsval) (st : jsstring) (s : nat) :
  is_Some (parseNoteToSemitone root) → validScaleType st →
  (∀ i, (i < n)%nat → is_Some (parseNoteToSemitone (arrayGet t i))) →
  (s < n)%nat →
  ∃ d row, generateScaleDiagram n t root st = Diagram d
         ∧ fretboard d !! s = Some row.
Proof.
  intros Hroot Hst Ht Hs.
  destruct (generate_succeeds n t root st Hroot Hst Ht) as (d & Hd & Hlen).
  destruct (lookup_lt_is_Some_2 (fretboard d) s ltac:(lia)) as [row Hrow].
  by exists d, row.
Qed.

Lemma bass_in_A_minor :
  let t := js <$> ["E"; "A"; "D"; "G"]%string in
  ∀ s, (s < 4)%nat →
  ∃ d row,
    generateScaleDiagram (prims := asciiPrims) 4 t (JStr (js "A"))
      (js "natural") = Diagram d
    ∧ fretboard d !! s = Some row.
Proof.
  intros t s Hs. apply diagram_with_row; [by eexists|by left| |done].
  intros i Hi. do 4 (destruct i as [|i]; [by eexists|]). lia.
Qed.

(** The key of A, pitch class 9. *)
Lemma naturalMinor_intervals_witness :
  0 ≤ 9 < 12
  ∧ ∃ l, naturalMinorScales !! 9 = Some l
       ∧ (λ t, parseNoteToSemitone (prims := asciiPrims) (JStr t)) <$> l
           = pitchesAbove 9 [0; 2; 3; 5; 7; 8; 10].
Proof.
  assert (0 ≤ 9 < 12) as H1 by lia.
  split; [exact H1|].
  exact (naturalMinor_intervals (prims := asciiPrims) 9 H1).
Defined.

(** The key of A: G becomes G#. *)
Lemma harmonicMinor_raised_seventh_witness :
  0 ≤ 9 < 12
  ∧ ∃ ln lh,
      naturalMinorScales !! 9 = Some ln
      ∧ harmonicMinorScales !! 9 = Some lh
      ∧ (λ t, parseNoteToSemitone (prims := asciiPrims) (JStr t)) <$> lh
          = pitchesAbove 9 [0; 2; 3; 5; 7; 8; 11]
      ∧ take 6 lh = take 6 ln
      ∧ take 1 <$> last lh = take 1 <$> last ln.
Proof.
  assert (0 ≤ 9 < 12) as H1 by lia.
  split; [exact H1|].
  exact (harmonicMinor_raised_seventh (prims := asciiPrims) 9 H1).
Defined.

(** The natural minor row of the key of D#. *)
Lemma scale_rows_diatonic_witness :
  0 ≤ 3 < 12
  ∧ validScaleType (js "natural")
  ∧ ∃ l c,
      scaleLookup (js "natural") 3 = Some l
      ∧ [c] ∈ noteLetters
      ∧ take 1 <$> l = (λ k, [letterAfter c k]) <$> seq 0 7.
Proof.
  assert (0 ≤ 3 < 12) as H1 by lia.
  assert (validScaleType (js "natural")) as H2 by (by left).
  split; [exact H1|]. split; [exact H2|].
  exact (scale_rows_diatonic 3 (js "natural") H1 H2).
Defined.

(** "Db" parses to 1, and entry 1 of the sharp names parses to 1. *)
Lemma sharp_name_round_trip_witness :
  parseNoteToSemitone (prims := asciiPrims) (JStr (js "Db")) = Some 1
  ∧ ∃ name,
      noteNamesSharp !! Z.to_nat 1 = Some name
      ∧ parseNoteToSemitone (prims := asciiPrims) (JStr name) = Some 1.
Proof.
  assert (parseNoteToSemitone (prims := asciiPrims) (JStr (js "Db")) = Some 1)
    as H1 by reflexivity.
  split; [exact H1|].
  exact (sharp_name_round_trip (prims := asciiPrims) (JStr (js "Db")) 1 H1).
Defined.

(** "f#b" and "F#B". *)
Lemma parseNote_case_insensitive_witness :
  isAscii (js "f#b") = true
  ∧ parseNoteToSemitone (prims := asciiPrims)
      (JStr (asciiUpper <$> js "f#b"))
      = parseNoteToSemitone (prims := asciiPrims) (JStr (js "f#b")).
Proof.
  assert (isAscii (js "f#b") = true) as H1 by reflexivity.
  split; [exact H1|].
  exact (parseNote_case_insensitive (prims := asciiPrims) (js "f#b") H1).
Defined.

(** "B", "B#", "Bb" and "B#b". *)
Lemma parseNote_append_accidental_witness :
  isAscii (js "B") = true
  ∧ last (js "B") = Some 66%N
  ∧ isWhiteSpace 66 = false
  ∧ parseNoteToSemitone (prims := asciiPrims) (JStr (js "B" ++ js "#"))
      = (λ v, (v + 1) `mod` 12)
          <$> parseNoteToSemitone (prims := asciiPrims) (JStr (js "B"))
  ∧ parseNoteToSemitone (prims := asciiPrims) (JStr (js "B" ++ js "b"))
      = (λ v, (v - 1) `mod` 12)
          <$> parseNoteToSemitone (prims := asciiPrims) (JStr (js "B"))
  ∧ parseNoteToSemitone (prims := asciiPrims) (JStr (js "B" ++ js "#b"))
      = parseNoteToSemitone (prims := asciiPrims) (JStr (js "B")).
Proof.
  assert (isAscii (js "B") = true) as H1 by reflexivity.
  assert (last (js "B") = Some 66%N) as H2 by reflexivity.
  assert (isWhiteSpace 66 = false) as H3 by reflexivity.
  split; [exact H1|]. split; [exact H2|]. split; [exact H3|].
  exact (parseNote_append_accidental (prims := asciiPrims)
           (js "B") 66%N H1 H2 H3).
Defined.

(** "Drop D" on seven strings. *)
Lemma parseTuning_length_witness :
  ∃ tuning,
    parseTuning (prims := asciiPrims) (JStr (js "Drop D")) 7 = Some tuning
    ∧ length tuning = 7%nat.
Proof.
  destruct (parseTuning (prims := asciiPrims) (JStr (js "Drop D")) 7)
    as [tuning|] eqn:Hcall.
  - exists tuning. split; [reflexivity|].
    exact (parseTuning_length (prims := asciiPrims) _ _ tuning Hcall).
  - vm_compute in Hcall. discriminate Hcall.
Defined.

(** "e a d g" on four strings, in explicit form. *)
Lemma parseTuning_keeps_pitch_witness :
  isAscii (js "e a d g") = true
  ∧ ∃ tuning,
      parseTuning (prims := asciiPrims) (JStr (js "e a d g")) 4
        = Some tuning
      ∧ (λ t, parseNoteToSemitone (prims := asciiPrims) (JStr t)) <$> tuning
          = (λ t, parseNoteToSemitone (prims := asciiPrims) (JStr t))
              <$> words (js "e a d g").
Proof.
  assert (isAscii (js "e a d g") = true) as H1 by reflexivity.
  split; [exact H1|].
  destruct (parseTuning (prims := asciiPrims) (JStr (js "e a d g")) 4)
    as [tuning|] eqn:Hcall.
  - exists tuning. split; [reflexivity|].
    apply (proj1 (parseTuning_keeps_pitch (prims := asciiPrims)
                    (js "e a d g") 4 tuning H1 Hcall)).
    rewrite <- isDropForm_spec. by vm_compute.
  - vm_compute in Hcall. discriminate Hcall.
Defined.

(** The same four tokens with other white space around them. *)
Lemma parseTuning_whitespace_insensitive_witness :
  let s1 := [9; 69; 32; 32; 65; 10; 68; 160; 71; 32]%N in
  let s2 := js "E A D G" in
  s1 ≠ [] ∧ s2 ≠ [] ∧ words s1 = words s2
  ∧ parseTuning (prims := asciiPrims) (JStr s1) 4
      = parseTuning (prims := asciiPrims) (JStr s2) 4.
Proof.
  intros s1 s2.
  assert (s1 ≠ []) as H1 by done.
  assert (s2 ≠ []) as H2 by done.
  assert (words s1 = words s2) as H3 by reflexivity.
  split; [exact H1|]. split; [exact H2|]. split; [exact H3|].
  exact (parseTuning_whitespace_insensitive (prims := asciiPrims)
           s1 s2 4 H1 H2 H3).
Defined.

(** The key "H" and the selector "major": the key is reported. *)
Lemma generate_error_cases_witness :
  let t := js <$> ["E"; "A"; "D"; "G"]%string in
  generateScaleDiagram (prims := asciiPrims) 4 t (JStr (js "H"))
    (js "major") = Error errInvalidKey
  ∧ errInvalidKey ≠ errScaleNotFound
  ∧ errInvalidKey ≠ [].
Proof.
  intros t.
  assert (generateScaleDiagram (prims := asciiPrims) 4 t (JStr (js "H"))
            (js "major") = Error errInvalidKey) as H1 by reflexivity.
  split; [exact H1|].
  exact (proj2 (generate_error_cases (prims := asciiPrims) 4 t
                  (JStr (js "H")) (js "major") errInvalidKey H1)).
Defined.

(** A# minor on "C#" and "Eb", and Bb minor on "Db" and "D#". *)
Lemma generate_enharmonic_witness :
  let t := js <$> ["C#"; "Eb"]%string in
  let t' := js <$> ["Db"; "D#"]%string in
  parseNoteToSemitone (prims := asciiPrims) (JStr (js "A#"))
    = parseNoteToSemitone (prims := asciiPrims) (JStr (js "Bb"))
  ∧ (∀ i, (i < 2)%nat →
       is_Some (parseNoteToSemitone (prims := asciiPrims) (arrayGet t i))
       ∧ parseNoteToSemitone (prims := asciiPrims) (arrayGet t i)
           = parseNoteToSemitone (prims := asciiPrims) (arrayGet t' i))
  ∧ generateScaleDiagram (prims := asciiPrims) 2 t (JStr (js "A#"))
      (js "natural")
    = generateScaleDiagram (prims := asciiPrims) 2 t' (JStr (js "Bb"))
        (js "natural").
Proof.
  intros t t'.
  assert (parseNoteToSemitone (prims := asciiPrims) (JStr (js "A#"))
          = parseNoteToSemitone (prims := asciiPrims) (JStr (js "Bb")))
    as H1 by reflexivity.
  assert (∀ i, (i < 2)%nat →
       is_Some (parseNoteToSemitone (prims := asciiPrims) (arrayGet t i))
       ∧ parseNoteToSemitone (prims := asciiPrims) (arrayGet t i)
           = parseNoteToSemitone (prims := asciiPrims) (arrayGet t' i))
    as H2.
  { intros i Hi.
    do 2 (destruct i as [|i]; [by split; [eexists|]|]). lia. }
  split; [exact H1|]. split; [exact H2|].
  exact (generate_enharmonic (prims := asciiPrims) 2 t t'
           (JStr (js "A#")) (JStr (js "Bb")) (js "natural") H1 H2).
Defined.

(** The lowest string of a four-string bass in A minor. *)
Lemma fretboard_rows_cover_octave_witness :
  ∃ d row,
    generateScaleDiagram (prims := asciiPrims) 4
      (js <$> ["E"; "A"; "D"; "G"]%string) (JStr (js "A")) (js "natural")
      = Diagram d
    ∧ fretboard d !! 0%nat = Some row
    ∧ row.*1 ≡ₚ JStr <$> noteNamesSharp
    ∧ length (filter (λ cell, cell.2 = true) row) = 7%nat.
Proof.
  destruct (bass_in_A_minor 0%nat ltac:(lia)) as (d & row & Hd & Hrow).
  exists d, row. split; [exact Hd|]. split; [exact Hrow|].
  exact (fretboard_rows_cover_octave (prims := asciiPrims) _ _ _ _ d
           0%nat row Hd Hrow).
Defined.

(** The A string of a four-string bass in A minor. *)
Lemma fretboard_names_parse_back_witness :
  ∃ d row,
    generateScaleDiagram (prims := asciiPrims) 4
      (js <$> ["E"; "A"; "D"; "G"]%string) (JStr (js "A")) (js "natural")
      = Diagram d
    ∧ fretboard d !! 1%nat = Some row
    ∧ ∃ name inScale,
        row !! 11%nat = Some (JStr name, inScale)
        ∧ parseNoteToSemitone (prims := asciiPrims) (JStr name) = Some 9.
Proof.
  destruct (bass_in_A_minor 1%nat ltac:(lia)) as (d & row & Hd & Hrow).
  exists d, row. split; [exact Hd|]. split; [exact Hrow|].
  destruct (fretboard_names_parse_back (prims := asciiPrims) _ _ _ _ d
              1%nat row Hd Hrow) as (o & Ho & _ & Hlast).
  assert (o = 9) as -> by (vm_compute in Ho; congruence).
  exact Hlast.
Defined.

(** The D string of a four-string bass in A minor. *)
Lemma root_cells_witness :
  ∃ d row,
    generateScaleDiagram (prims := asciiPrims) 4
      (js <$> ["E"; "A"; "D"; "G"]%string) (JStr (js "A")) (js "natural")
      = Diagram d
    ∧ fretboard d !! 2%nat = Some row
    ∧ length (filter (λ cell,
        App.circleClass (prims := asciiPrims) (rootSemitone d) cell
          = js "note-root") row)
      = 1%nat.
Proof.
  destruct (bass_in_A_minor 2%nat ltac:(lia)) as (d & row & Hd & Hrow).
  exists d, row. split; [exact Hd|]. split; [exact Hrow|].
  exact (proj2 (root_cells (prims := asciiPrims) _ _ _ _ d 2%nat row
                  Hd Hrow)).
Defined.

(** Two strings, the key "H", the selector "major", and "X" as the
    third entry of the tuning. *)
Lemma handleGenerate_reports_tuning_first_witness :
  let st := {| App.numStrings := 2;
               App.tuningNotes := js <$> ["E"; "A"; "X"; "G"]%string;
               App.rootNote := js "H";
               App.scaleType := js "major";
               App.result := None;
               App.error := None |} in
  App.tuningNotes st !! 2%nat = Some (js "X")
  ∧ parseNoteToSemitone (prims := asciiPrims) (JStr (js "X")) = None
  ∧ App.error (App.handleGenerate (prims := asciiPrims) st)
      = Some (tuningNotePrefix ++ js "X")
  ∧ App.result (App.handleGenerate (prims := asciiPrims) st) = None.
Proof.
  intros st.
  assert (App.tuningNotes st !! 2%nat = Some (js "X")) as H1
    by reflexivity.
  assert (parseNoteToSemitone (prims := asciiPrims) (JStr (js "X")) = None)
    as H2 by reflexivity.
  split; [exact H1|]. split; [exact H2|].
  apply (handleGenerate_reports_tuning_first (prims := asciiPrims)
           st 2 (js "X") H1 H2).
  intros j x Hj Hx.
  do 2 (destruct j as [|j]; [injection Hx as <-; by eexists|]). lia.
Defined.

(** Seven strings with the lowest one retuned to A, and nine strings
    typed into the count while the six-string tuning stays. *)
Lemma reachable_generate_witness :
  let st7 := App.setTuningNotes
               (<[0%nat := js "A"]> (default [] (standardTunings !! 7%nat)))
               (App.setNumStrings 7 App.initial) in
  let st9 := App.setNumStrings 9 App.initial in
  App.reachable (prims := asciiPrims) st7
  ∧ App.reachable (prims := asciiPrims) st9
  ∧ (∃ d, App.result (App.handleGenerate (prims := asciiPrims) st7)
            = Some (Diagram d)
        ∧ App.error (App.handleGenerate (prims := asciiPrims) st7) = None
        ∧ length (fretboard d) = 7%nat)
  ∧ App.error (App.handleGenerate (prims := asciiPrims) st9)
      = Some (tuningNotePrefix ++ js "undefined")
  ∧ App.result (App.handleGenerate (prims := asciiPrims) st9) = None.
Proof.
  intros st7 st9.
  assert (App.reachable (prims := asciiPrims) st7) as H7.
  { apply (App.reachable_step _ (App.ChangeTuning 0 (js "A")) st7
             (App.reachable_step _ (App.ChangeNumStrings 7) _
                App.reachable_initial eq_refl)).
    reflexivity. }
  assert (App.reachable (prims := asciiPrims) st9) as H9.
  { exact (App.reachable_step _ (App.ChangeNumStrings 9) st9
             App.reachable_initial eq_refl). }
  split; [exact H7|]. split; [exact H9|]. split.
  - apply (proj1 (reachable_generate (prims := asciiPrims) st7 H7)).
    cbn. lia.
  - apply (proj2 (reachable_generate (prims := asciiPrims) st9 H9)).
    cbn. lia.
Defined.

(** The initial state: six strings in standard tuning, C harmonic
    minor; the lowest string. *)
Lemma generated_rows_match_labels_witness :
  ∃ d row label o name inScale,
    App.result (App.handleGenerate (prims := asciiPrims) App.initial)
      = Some (Diagram d)
    ∧ fretboard d !! 0%nat = Some row
    ∧ App.tuningNotes (App.handleGenerate (prims := asciiPrims) App.initial)
        !! 0%nat = Some label
    ∧ parseNoteToSemitone (prims := asciiPrims) (JStr label) = Some o
    ∧ row !! 11%nat = Some (JStr name, inScale)
    ∧ parseNoteToSemitone (prims := asciiPrims) (JStr name) = Some o.
Proof.
  destruct (App.result (App.handleGenerate (prims := asciiPrims)
                          App.initial)) as [[d|message]|] eqn:Hd;
    [|vm_compute in Hd; discriminate Hd..].
  destruct (fretboard d !! 0%nat) as [row|] eqn:Hrow.
  2:{ vm_compute in Hd. injection Hd as <-. vm_compute in Hrow.
      discriminate Hrow. }
  destruct (generated_rows_match_labels (prims := asciiPrims) App.initial
              d 0%nat row Hd Hrow)
    as (label & o & name & inScale & H1 & H2 & H3 & H4).
  by exists d, row, label, o, name, inScale.
Defined.

